(** * Bluetti polling coordinator: a shallow embedding

    Source: [custom_components/bluetti_bt/coordinator.py], class
    [PollingCoordinator].  The coordinator polls a power station over BLE:
    [_async_update_data] opens a connection, sends every polling command of the
    device, waits for the answer that [_notification_handler] assembles from
    notification chunks, merges the parsed fields into one dict and disconnects.

    Python objects become records, the mutable attributes of [self] become an
    explicit state, and coroutines become functions from a state to an outcome
    and a state.  What the BLE stack does (how an awaited call ends, which
    notifications arrive meanwhile, when a timeout expires) is read from an
    explicit script, so every run of the coroutine is the run on some script.

    The exception classes are told apart as Python 3.11 and later do:
    [asyncio.TimeoutError] is the builtin [TimeoutError], and
    [asyncio.CancelledError] is not an [Exception]. *)

From Stdlib Require Import Strings.Byte.
From stdpp Require Import gmap strings list pretty.

Local Open Scope string_scope.
Local Open Scope list_scope.
Local Open Scope Z_scope.

(** ** Bytes *)

Abbreviation bytes := (list byte).

#[global] Instance byte_eq_dec : EqDecision byte := Byte.byte_eq_dec.

(** [b"AT+NAME?\r"] and [b"AT+ADV?\r"]; the carriage return is byte 0x0d. *)
Definition AT_NAME : bytes := String.list_byte_of_string "AT+NAME?" ++ [x0d].
Definition AT_ADV : bytes := String.list_byte_of_string "AT+ADV?" ++ [x0d].

(** ** Exceptions *)

(** The exception classes the coordinator names, the two the interpreter
    raises in the handler ([IndexError] from [notify_response[2]],
    [AttributeError] from a method call on [None]), and [OtherException] for an
    instance of any class that none of the [except] clauses names. *)
Inductive exn : Type :=
| TimeoutError
| CancelledError
| ParseError (msg : string)
| ModbusError (msg : string)
| BadConnectionError (msg : string)
| BleakError (msg : string)
| IndexError
| AttributeError
| OtherException (cls : string).

(** How a call ends: with a value or with a raised exception. *)
Inductive outcome (A : Type) : Type :=
| Ret (a : A)
| Raise (e : exn).
Arguments Ret {A} a.
Arguments Raise {A} e.

(** ** Commands and devices (the catalog's interface) *)

(** A command object of the catalog, as the coordinator uses it:
    [str(command)], [bytes(command)], the attribute [starting_address] and the
    methods [response_size], [is_valid_response], [is_exception_response] and
    [parse_response]. *)
Record Command : Type := {
  cmd_str : string;
  cmd_bytes : bytes;
  starting_address : Z;
  response_size : Z;
  is_valid_response : bytes -> bool;
  is_exception_response : bytes -> bool;
  parse_response : bytes -> outcome bytes;
}.

(** The device model [build_device] returns: [polling_commands] and
    [parse(starting_address, body)], which returns a dict of fields. *)
Record Device (V : Type) : Type := {
  polling_commands : list Command;
  parse : Z -> bytes -> outcome (gmap string V);
}.
Arguments polling_commands {V} d.
Arguments parse {V} d addr body.

(** ** The coordinator's state *)

(** An [asyncio.Future]: pending, or done with a result, with an exception, or
    by cancellation. *)
Inductive future : Type :=
| Pending
| Resolved (res : bytes)
| Failed (err : exn)
| Cancelled.

Definition done (f : future) : bool :=
  match f with
  | Pending => false
  | _ => true
  end.

(** The attributes the two methods assign.  [bluetti_device] and [_address]
    are set once by [__init__] and never assigned again: the device model is a
    parameter of [_async_update_data] below, and the address only feeds the
    discovery call and a log line. *)
Record coordinator : Type := {
  notify_future : option future;
  current_command : option Command;
  notify_response : bytes;
}.

Definition set_notify_future (f : option future) (self : coordinator) : coordinator :=
  {| notify_future := f;
     current_command := current_command self;
     notify_response := notify_response self |}.

Definition set_current_command (c : option Command) (self : coordinator) : coordinator :=
  {| notify_future := notify_future self;
     current_command := c;
     notify_response := notify_response self |}.

Definition set_notify_response (r : bytes) (self : coordinator) : coordinator :=
  {| notify_future := notify_future self;
     current_command := current_command self;
     notify_response := r |}.

(** ** [_notification_handler] *)

(** [f"MODBUS Exception {self.current_command}: {self.notify_response[2]}"];
    indexing a [bytearray] gives the byte as an integer. *)
Definition modbus_message (cmd : Command) (code : byte) : string :=
  "MODBUS Exception " +:+ cmd_str cmd +:+ ": " +:+ pretty (Byte.to_N code).

Definition is_at_notification (data : bytes) : bool :=
  bool_decide (data = AT_NAME) || bool_decide (data = AT_ADV).

(** The handler returns nothing; the outcome says whether it raised.  The
    state it leaves is the state after the last statement it ran: an
    [IndexError] at [notify_response[2]] comes after [extend]. *)
Definition _notification_handler (self : coordinator) (data : bytes)
  : outcome unit * coordinator :=
  match notify_future self with
  | None => (Ret tt, self)
  | Some fut =>
    if done fut then (Ret tt, self)
    else if is_at_notification data then
      (Ret tt,
       set_notify_future (Some (Failed (BadConnectionError "Got AT+ notification"))) self)
    else
      let self := set_notify_response (notify_response self ++ data) self in
      match current_command self with
      | None => (Raise AttributeError, self)
      | Some cmd =>
        if Z.of_nat (length (notify_response self)) =? response_size cmd then
          if is_valid_response cmd (notify_response self) then
            (Ret tt, set_notify_future (Some (Resolved (notify_response self))) self)
          else
            (Ret tt, set_notify_future (Some (Failed (ParseError "Failed checksum"))) self)
        else if is_exception_response cmd (notify_response self) then
          match notify_response self !! 2%nat with
          | None => (Raise IndexError, self)
          | Some code =>
            (Ret tt,
             set_notify_future (Some (Failed (ModbusError (modbus_message cmd code)))) self)
          end
        else (Ret tt, self)
      end
  end.

(** Notifications delivered one after the other.  The handler runs as a
    callback of the BLE stack: what it raises does not reach the polling
    coroutine, and the next notification is delivered all the same. *)
Fixpoint deliver (self : coordinator) (chunks : list bytes) : coordinator :=
  match chunks with
  | [] => self
  | data :: rest => deliver (snd (_notification_handler self data)) rest
  end.

(** The states the coordinator goes through while [chunks] arrive, the first
    one included. *)
Fixpoint deliveries (self : coordinator) (chunks : list bytes) : list coordinator :=
  self ::
  match chunks with
  | [] => []
  | data :: rest => deliveries (snd (_notification_handler self data)) rest
  end.

(** ** The polling coroutine *)

(** The methods of the [BleakClient] the coroutine calls, as it calls them. *)
Inductive call : Type :=
| Connect
| StartNotify
| WriteGattChar (data : bytes)
| Disconnect.

#[global] Instance call_eq_dec : EqDecision call.
Proof. solve_decision. Defined.

(** What a run of the coroutine works on: the coordinator, whether the
    [async_timeout.timeout(15)] deadline has cancelled the task, and the calls
    made on the client so far, oldest first. *)
Record world : Type := {
  self_of : coordinator;
  timed_out : bool;
  calls : list call;
}.

(** How an awaited call of the client ends: it returns, it raises, or the 15 s
    deadline passes while it is pending, which cancels the task there. *)
Inductive ending : Type :=
| Completes
| Throws (e : exn)
| Expires.

(** An awaited call: the notifications that arrive while it is pending, and
    its ending. *)
Record awaited : Type := {
  arriving : list bytes;
  ending_of : ending;
}.

(** What ends the wait for an answer that never settles the future:
    [RESPONSE_TIMEOUT] of [wait_for], the deadline of the whole block, or a
    cancellation of the polling task from outside (a shutdown, say). *)
Inductive expiry : Type :=
| ResponseTimeout
| CycleDeadline
| TaskCancelled.

(** One command's exchange: the write, the notifications that arrive during
    the wait, and what ends the wait if they do not settle the future. *)
Record exchange : Type := {
  write : awaited;
  answer : list bytes;
  otherwise : expiry;
}.

(** Everything outside the coroutine, for one run: the discovery result, the
    endings of [connect] and [start_notify], the exchange of the command at
    each position of the polling list, and [disconnect], which runs outside
    the timeout block. *)
Record script : Type := {
  ble_device : option unit;
  connect : ending;
  start_notify : awaited;
  exchanges : nat -> exchange;
  disconnect_arriving : list bytes;
  disconnect : option exn;
}.

(** State and exceptions: a computation takes a world and gives an outcome and
    a world. *)
Definition M (A : Type) : Type := world -> outcome A * world.

Definition ret {A} (a : A) : M A := fun w => (Ret a, w).
Definition raise {A} (e : exn) : M A := fun w => (Raise e, w).
Definition bind {A B} (m : M A) (k : A -> M B) : M B :=
  fun w =>
    match m w with
    | (Ret a, w') => k a w'
    | (Raise e, w') => (Raise e, w')
    end.
Definition lift {A} (o : outcome A) : M A := fun w => (o, w).

Notation "x <- m ;; k" := (bind m (fun x => k))
  (at level 100, m at next level, k at level 200, right associativity).
Notation "m ;; k" := (bind m (fun _ => k))
  (at level 100, k at level 200, right associativity).

(** [try: m except ...]: [handler e] is the body of the first clause that
    matches [e], if one does. *)
Definition try_except {A} (m : M A) (handler : exn -> option (M A)) : M A :=
  fun w =>
    match m w with
    | (Ret a, w') => (Ret a, w')
    | (Raise e, w') =>
      match handler e with
      | Some h => h w'
      | None => (Raise e, w')
      end
    end.

(** [try: m finally: f]: [f] runs however [m] ends, and what [f] raises
    replaces the outcome of [m]. *)
Definition try_finally {A} (m : M A) (f : M unit) : M A :=
  fun w =>
    match m w with
    | (o, w') =>
      match f w' with
      | (Ret _, w'') => (o, w'')
      | (Raise e, w'') => (Raise e, w'')
      end
    end.

(** [async with async_timeout.timeout(15): m]: the block starts a deadline of
    its own, and when that deadline has cancelled the task, the
    [CancelledError] leaving the block becomes a [TimeoutError]. *)
Definition timeout_block {A} (m : M A) : M A :=
  fun w =>
    match m {| self_of := self_of w; timed_out := false; calls := calls w |} with
    | (Raise CancelledError, w') =>
      if timed_out w' then (Raise TimeoutError, w') else (Raise CancelledError, w')
    | r => r
    end.

Definition update_self (f : coordinator -> coordinator) : M unit :=
  fun w => (Ret tt, {| self_of := f (self_of w); timed_out := timed_out w; calls := calls w |}).

Definition called (c : call) : M unit :=
  fun w => (Ret tt, {| self_of := self_of w; timed_out := timed_out w; calls := calls w ++ [c] |}).

Definition deadline {A} : M A :=
  fun w => (Raise CancelledError, {| self_of := self_of w; timed_out := true; calls := calls w |}).

Definition ends (e : ending) : M unit :=
  match e with
  | Completes => ret tt
  | Throws e => raise e
  | Expires => deadline
  end.

(** [await client.method(...)] with the handler subscribed. *)
Definition await_call (c : call) (a : awaited) : M unit :=
  called c ;;
  update_self (fun self => deliver self (arriving a)) ;;
  ends (ending_of a).

(** [await asyncio.wait_for(self.notify_future, timeout=RESPONSE_TIMEOUT)].
    A timeout, of either kind, and a cancellation of the task cancel the
    future that is waited for; a cancellation from outside leaves the
    deadline's state alone. *)
Definition wait_for (x : exchange) : M bytes :=
  update_self (fun self => deliver self (answer x)) ;;
  fun w =>
    match notify_future (self_of w) with
    | None => raise (OtherException "TypeError") w
    | Some (Resolved res) => ret res w
    | Some (Failed err) => raise err w
    | Some Cancelled => raise CancelledError w
    | Some Pending =>
      (update_self (set_notify_future (Some Cancelled)) ;;
       match otherwise x with
       | ResponseTimeout => raise TimeoutError
       | CycleDeadline => deadline
       | TaskCancelled => raise CancelledError
       end) w
    end.

(** The body of the inner [try], for one command; [parsed_data] is the dict
    the loop updates. *)
Definition request {V} (dev : Device V) (command : Command) (x : exchange)
    (parsed_data : gmap string V) : M (gmap string V) :=
  update_self (set_current_command (Some command)) ;;
  update_self (set_notify_future (Some Pending)) ;;
  update_self (set_notify_response []) ;;
  await_call (WriteGattChar (cmd_bytes command)) (write x) ;;
  res <- wait_for x ;;
  body <- lift (parse_response command res) ;;
  parsed <- lift (parse dev (starting_address command) body) ;;
  ret (parsed ∪ parsed_data).

(** The [except] clauses of the inner [try]: each one logs and falls through
    to the next iteration. *)
Definition logged (e : exn) : bool :=
  match e with
  | TimeoutError | ParseError _ | ModbusError _ | BadConnectionError _ | BleakError _ => true
  | _ => false
  end.

(** [for command in self.bluetti_device.polling_commands], from position [i]. *)
Fixpoint poll {V} (dev : Device V) (s : script) (i : nat) (commands : list Command)
    (parsed_data : gmap string V) : M (gmap string V) :=
  match commands with
  | [] => ret parsed_data
  | command :: rest =>
    parsed_data <- try_except (request dev command (exchanges s i) parsed_data)
                     (fun e => if logged e then Some (ret parsed_data) else None) ;;
    poll dev s (S i) rest parsed_data
  end.

(** The outer [except] clauses: both return [None]. *)
Definition gives_up (e : exn) : bool :=
  match e with
  | TimeoutError | BleakError _ => true
  | _ => false
  end.

(** [_async_update_data]; [connect] is awaited before the handler is
    subscribed, so no notification reaches the handler during it. *)
Definition _async_update_data {V} (bluetti_device : option (Device V)) (s : script)
  : M (option (gmap string V)) :=
  match ble_device s with
  | None => ret None
  | Some _ =>
    match bluetti_device with
    | None => ret None
    | Some dev =>
      try_finally
        (try_except
           (parsed_data <- timeout_block
              (await_call Connect {| arriving := []; ending_of := connect s |} ;;
               await_call StartNotify (start_notify s) ;;
               poll dev s 0 (polling_commands dev) ∅) ;;
            ret (Some parsed_data))
           (fun e => if gives_up e then Some (ret None) else None))
        (called Disconnect ;;
         update_self (fun self => deliver self (disconnect_arriving s)) ;;
         match disconnect s with
         | None => ret tt
         | Some e => raise e
         end)
    end
  end.

(** ** Notions the statements use *)

(** The coordinator as [__init__] leaves it, and a run's first world. *)
Definition idle : coordinator :=
  {| notify_future := None; current_command := None; notify_response := [] |}.

Definition start : world :=
  {| self_of := idle; timed_out := false; calls := [] |}.

(** The slot is settled: there is no future, or it is done. *)
Definition settled (self : coordinator) : bool :=
  match notify_future self with
  | None => true
  | Some fut => done fut
  end.

(** The coordinator as the loop leaves it before it writes [command]. *)
Definition fresh (command : Command) : coordinator :=
  {| notify_future := Some Pending;
     current_command := Some command;
     notify_response := [] |}.

(** What the length check makes of a whole answer [resp]. *)
Definition length_check (command : Command) (resp : bytes) : future :=
  if Z.of_nat (length resp) =? response_size command then
    if is_valid_response command resp then Resolved resp
    else Failed (ParseError "Failed checksum")
  else Pending.

(** How the inner [try] ends for [command] on exchange [x]: the fields it
    parsed, or the exception it raised.  The loop assigns the command, the
    future and the accumulator before it writes, so this is the body run from
    the start world with an empty dict. *)
Definition attempt {V} (dev : Device V) (command : Command) (x : exchange)
  : outcome (gmap string V) :=
  fst (request dev command x ∅ start).

(** The dict after the commands from position [i] on, when every failed
    attempt is skipped: the fields of each successful attempt are merged over
    the dict so far. *)
Fixpoint harvest {V} (dev : Device V) (s : script) (i : nat) (commands : list Command)
    (parsed_data : gmap string V) : gmap string V :=
  match commands with
  | [] => parsed_data
  | command :: rest =>
    harvest dev s (S i) rest
      match attempt dev command (exchanges s i) with
      | Ret parsed => parsed ∪ parsed_data
      | Raise _ => parsed_data
      end
  end.

(** An outcome that raises, if at all, an exception [allowed] accepts; an
    ending that throws, if at all, such an exception. *)
Definition raises_only {A} (allowed : exn -> bool) (o : outcome A) : Prop :=
  match o with
  | Ret _ => True
  | Raise e => allowed e = true
  end.

Definition throws_only (allowed : exn -> bool) (e : ending) : Prop :=
  match e with
  | Throws x => allowed x = true
  | _ => True
  end.

(** The runs in which every exception comes from a class some [except]
    clause on its way names: [connect] and [start_notify] raise nothing but
    what the outer clauses catch, the writes and the two parsers raise nothing
    but what the inner clauses log, no wait is cancelled from outside, and
    [disconnect] raises nothing.  A [CancelledError] is in neither class, so
    the task is cancelled at no await of such a run. *)
Record expected_errors {V} (dev : Device V) (s : script) : Prop := {
  connect_expected : throws_only gives_up (connect s);
  start_notify_expected : throws_only gives_up (ending_of (start_notify s));
  write_expected :
    forall i command, polling_commands dev !! i = Some command ->
      throws_only logged (ending_of (write (exchanges s i)));
  wait_expected :
    forall i command, polling_commands dev !! i = Some command ->
      otherwise (exchanges s i) <> TaskCancelled;
  parse_response_expected :
    forall command res, command ∈ polling_commands dev ->
      raises_only logged (parse_response command res);
  parse_expected :
    forall command body, command ∈ polling_commands dev ->
      raises_only logged (parse dev (starting_address command) body);
  disconnect_expected : disconnect s = None;
}.

(** A computation that only adds calls, none of them [disconnect]. *)
Definition no_disconnect {A} (m : M A) : Prop :=
  forall w, exists tr, calls (snd (m w)) = calls w ++ tr /\ Disconnect ∉ tr.

(** The future of a request under way holds what the handler may have set:
    a result, or one of the three exceptions the handler builds. *)
Definition set_by_handler (self : coordinator) : Prop :=
  match notify_future self with
  | Some Pending | Some (Resolved _) => True
  | Some (Failed e) => logged e = true
  | Some Cancelled | None => False
  end.

(** The writes of the polling commands, as calls on the client. *)
Definition writes (commands : list Command) : list call :=
  (fun command => WriteGattChar (cmd_bytes command)) <$> commands.

(** All the notifications of an exchange, in the order they arrive: those
    during the write, then those during the wait. *)
Definition stream (x : exchange) : list bytes :=
  arriving (write x) ++ answer x.

(** An ending of [connect] or [start_notify] after which the outer clauses
    return [None]: a [TimeoutError], a [BleakError], or the deadline. *)
Definition fails_quietly (e : ending) : Prop :=
  match e with
  | Completes => False
  | Throws x => gives_up x = true
  | Expires => True
  end.

(** The 15 s deadline expires during the exchange of [command]: while the
    write is pending, or during the wait for an answer that has not settled
    the future. *)
Definition deadline_hits (command : Command) (x : exchange) : Prop :=
  ending_of (write x) = Expires \/
  (ending_of (write x) = Completes /\
   notify_future (deliver (fresh command) (stream x)) = Some Pending /\
   otherwise x = CycleDeadline).

(** A result on the future belongs to the command and to the accumulator. *)
Definition result_checked (self : coordinator) : Prop :=
  forall cmd res,
    current_command self = Some cmd ->
    notify_future self = Some (Resolved res) ->
    Z.of_nat (length res) = response_size cmd /\
    is_valid_response cmd res = true /\
    res = notify_response self.

(** What the outer clauses make of the way the block under the deadline
    ends; [late] says whether the deadline has cancelled the task. *)
Definition outer_outcome {V} (o : outcome (gmap string V)) (late : bool)
  : outcome (option (gmap string V)) :=
  match o with
  | Ret parsed_data => Ret (Some parsed_data)
  | Raise CancelledError => if late then Ret None else Raise CancelledError
  | Raise e => if gives_up e then Ret None else Raise e
  end.

(** The [finally] clause, run after outcome [o] in world [w]. *)
Definition closes {A} (s : script) (o : outcome A) (w : world) : outcome A * world :=
  let w' := {| self_of := deliver (self_of w) (disconnect_arriving s);
               timed_out := timed_out w;
               calls := calls w ++ [Disconnect] |} in
  match disconnect s with
  | None => (o, w')
  | Some e => (Raise e, w')
  end.

(** The per-command errors the loop recovers from: a response timeout, a
    checksum or frame error, an exception answer of the device. *)
Definition recoverable (e : exn) : bool :=
  match e with
  | TimeoutError | ParseError _ | ModbusError _ => true
  | _ => false
  end.

(** What the exchange [x] of [command] contributes to the dict, read off the
    script, the future the handler leaves and the parsers.  [Some parsed]: the
    write completed, the notifications resolved the future with [res], and
    the parsers made [parsed] of it.  [None]: the write, the future, the wait
    or a parser ended in a recoverable error. *)
Inductive contributes {V} (dev : Device V) (command : Command) (x : exchange)
  : option (gmap string V) -> Prop :=
| command_succeeds res body parsed :
    ending_of (write x) = Completes ->
    notify_future (deliver (fresh command) (stream x)) = Some (Resolved res) ->
    parse_response command res = Ret body ->
    parse dev (starting_address command) body = Ret parsed ->
    contributes dev command x (Some parsed)
| write_fails e :
    ending_of (write x) = Throws e ->
    recoverable e = true ->
    contributes dev command x None
| answer_times_out :
    ending_of (write x) = Completes ->
    notify_future (deliver (fresh command) (stream x)) = Some Pending ->
    otherwise x = ResponseTimeout ->
    contributes dev command x None
| answer_fails e :
    ending_of (write x) = Completes ->
    notify_future (deliver (fresh command) (stream x)) = Some (Failed e) ->
    recoverable e = true ->
    contributes dev command x None
| parse_response_fails res e :
    ending_of (write x) = Completes ->
    notify_future (deliver (fresh command) (stream x)) = Some (Resolved res) ->
    parse_response command res = Raise e ->
    recoverable e = true ->
    contributes dev command x None
| parse_fails res body e :
    ending_of (write x) = Completes ->
    notify_future (deliver (fresh command) (stream x)) = Some (Resolved res) ->
    parse_response command res = Ret body ->
    parse dev (starting_address command) body = Raise e ->
    recoverable e = true ->
    contributes dev command x None.

(** The dict after the contributions [results], taken in order over
    [parsed_data]: [update] with each dict of fields, nothing for [None]. *)
Fixpoint merged {V} (results : list (option (gmap string V)))
    (parsed_data : gmap string V) : gmap string V :=
  match results with
  | [] => parsed_data
  | Some parsed :: rest => merged rest (parsed ∪ parsed_data)
  | None :: rest => merged rest parsed_data
  end.

(** ** Sample catalog entries *)

(** A register read in the shape of the catalog's commands: the answer to a
    read of [quantity] registers has [2 * quantity + 5] bytes, its last byte
    is the sum of the others modulo 256, an exception answer has the function
    code with its high bit set (0x83) as second byte, and the body is what lies
    between the three header bytes and the trailer. *)
Definition byte_sum (bs : bytes) : N :=
  (foldr (fun b acc => Byte.to_N b + acc) 0 bs mod 256)%N.

Definition sample_valid (resp : bytes) : bool :=
  match last resp with
  | None => false
  | Some b => bool_decide (Byte.to_N b = byte_sum (removelast resp))
  end.

Definition sample_exception (resp : bytes) : bool :=
  match resp !! 1%nat with
  | None => false
  | Some b => bool_decide (b = x83)
  end.

Definition read_registers (addr quantity : Z) (request : bytes) : Command :=
  {| cmd_str := "ReadHoldingRegisters(" +:+ pretty addr +:+ ", " +:+ pretty quantity +:+ ")";
     cmd_bytes := request;
     starting_address := addr;
     response_size := 2 * quantity + 5;
     is_valid_response := sample_valid;
     is_exception_response := sample_exception;
     parse_response := fun resp => Ret (take (length resp - 5) (drop 3 resp)) |}.

Definition command_A : Command := read_registers 10 1 [x01; x03; x00; x0a; x00; x01].
Definition command_B : Command := read_registers 70 1 [x01; x03; x00; x46; x00; x01].

(** A device whose parser files the body under the starting address. *)
Definition sample_device : Device bytes :=
  {| polling_commands := [command_A; command_B];
     parse := fun addr body => Ret {[ pretty addr := body ]} |}.

Definition quiet_call : awaited := {| arriving := []; ending_of := Completes |}.

(** An answer of 7 bytes with a valid trailer, and the exchange that delivers
    it in two notifications. *)
Definition answer_7 : bytes := [x01; x03; x02; x00; x2a; x00; x30].

Definition answered : exchange :=
  {| write := quiet_call;
     answer := [take 4 answer_7; drop 4 answer_7];
     otherwise := ResponseTimeout |}.

Definition silent (e : expiry) : exchange :=
  {| write := quiet_call; answer := []; otherwise := e |}.

Definition at_name_received : exchange :=
  {| write := quiet_call; answer := [AT_NAME]; otherwise := ResponseTimeout |}.

Definition run_of (x0 x1 : exchange) (d : option exn) : script :=
  {| ble_device := Some tt;
     connect := Completes;
     start_notify := quiet_call;
     exchanges := fun i => match i with O => x0 | _ => x1 end;
     disconnect_arriving := [];
     disconnect := d |}.

(** A device whose parser files every body under one key, and a second
    answer with a valid trailer. *)
Definition same_key_device : Device bytes :=
  {| polling_commands := [command_A; command_B];
     parse := fun _ body => Ret {[ "value" := body ]} |}.

Definition other_answer_7 : bytes := [x01; x03; x02; x00; x2b; x00; x31].

Definition answered_otherwise : exchange :=
  {| write := quiet_call; answer := [other_answer_7]; otherwise := ResponseTimeout |}.

(** A device whose parser fails on every body. *)
Definition failing_parser_device : Device bytes :=
  {| polling_commands := [command_A; command_B];
     parse := fun _ _ => Raise (OtherException "KeyError") |}.

(** A device with three commands, and a run in which the second one gets no
    answer while the first and the third are answered. *)
Definition command_C : Command := read_registers 80 1 [x01; x03; x00; x50; x00; x01].

Definition three_command_device : Device bytes :=
  {| polling_commands := [command_A; command_B; command_C];
     parse := fun addr body => Ret {[ pretty addr := body ]} |}.

Definition second_unanswered : script :=
  {| ble_device := Some tt;
     connect := Completes;
     start_notify := quiet_call;
     exchanges := fun i => match i with
                           | 1%nat => silent ResponseTimeout
                           | 2%nat => answered_otherwise
                           | _ => answered
                           end;
     disconnect_arriving := [];
     disconnect := None |}.

Definition second_unanswered_results : list (option (gmap string bytes)) :=
  [Some {[ "10" := [x00; x2a] ]}; None; Some {[ "80" := [x00; x2b] ]}].

Example sample_answer_valid : sample_valid answer_7 = true.
Proof. reflexivity. Qed.

Example sample_cycle :
  _async_update_data (Some sample_device) (run_of answered answered None) start
  = (Ret (Some ({[ "70" := [x00; x2a] ]} ∪ ({[ "10" := [x00; x2a] ]} ∪ ∅))),
     {| self_of := {| notify_future := Some (Resolved answer_7);
                      current_command := Some command_B;
                      notify_response := answer_7 |};
        timed_out := false;
        calls := [Connect; StartNotify; WriteGattChar (cmd_bytes command_A);
                  WriteGattChar (cmd_bytes command_B); Disconnect] |}).
Proof. reflexivity. Qed.

(** * The notification handler *)

Section Handler.
Implicit Types (self : coordinator) (data : bytes) (chunks : list bytes).

Lemma handler_settled self data :
  settled self = true -> _notification_handler self data = (Ret tt, self).
Proof.
  unfold settled, _notification_handler.
  destruct (notify_future self) as [fut|]; [|done].
  by intros ->.
Qed.

Lemma deliver_settled self chunks :
  settled self = true -> deliver self chunks = self.
Proof.
  intros Hs. induction chunks as [|data rest IH]; [done|].
  simpl. by rewrite handler_settled.
Qed.


(** The handler step on a pending request whose chunk is not one of the two
    AT sequences, with the accumulator already extended. *)
Lemma handler_pending self cmd data :
  notify_future self = Some Pending ->
  current_command self = Some cmd ->
  is_at_notification data = false ->
  let acc := notify_response self ++ data in
  let self' := set_notify_response acc self in
  _notification_handler self data =
    if Z.of_nat (length acc) =? response_size cmd then
      (Ret tt, set_notify_future (Some (length_check cmd acc)) self')
    else if is_exception_response cmd acc then
      match acc !! 2%nat with
      | None => (Raise IndexError, self')
      | Some code =>
        (Ret tt, set_notify_future
                   (Some (Failed (ModbusError (modbus_message cmd code)))) self')
      end
    else (Ret tt, self').
Proof.
  intros Hf Hc Hat. unfold _notification_handler, length_check.
  rewrite Hf. simpl. rewrite Hat. simpl. rewrite Hc.
  destruct (Z.of_nat (length (notify_response self ++ data)) =? response_size cmd);
    [|done].
  by destruct (is_valid_response cmd (notify_response self ++ data)).
Qed.

(** The handler never touches [current_command]. *)
Lemma handler_current_command self data :
  current_command (snd (_notification_handler self data)) = current_command self.
Proof.
  unfold _notification_handler.
  repeat case_match; done.
Qed.
End Handler.

(** C3.  Once the slot is settled (the future holds a result, an exception or
    a cancellation, or there is no future), a notification of any content leaves
    the coordinator as it is and raises nothing, and so does any sequence of
    further notifications: the slot, the accumulator and the command keep their
    values. *)
Theorem settled_slot_ignores_notifications (self : coordinator) :
  settled self = true ->
  (forall data, _notification_handler self data = (Ret tt, self)) /\
  (forall chunks, deliver self chunks = self).
Proof.
  intros Hs. split.
  - intros data. by apply handler_settled.
  - intros chunks. by apply deliver_settled.
Qed.

Lemma settled_slot_ignores_notifications_witness :
  let self := {| notify_future := Some (Resolved answer_7);
                 current_command := Some command_A;
                 notify_response := answer_7 |} in
  (forall data, _notification_handler self data = (Ret tt, self)) /\
  (forall chunks, deliver self chunks = self).
Proof.
  apply (settled_slot_ignores_notifications
           {| notify_future := Some (Resolved answer_7);
              current_command := Some command_A;
              notify_response := answer_7 |}).
  reflexivity.
Defined.

(** C5.  While the future is pending, a notification equal to [AT+NAME?\r] or
    to [AT+ADV?\r] sets a [BadConnectionError] on the future at once, whatever
    the accumulator holds, and the accumulator and the command stay as they
    were: the chunk is not appended. *)
Theorem at_notification_fails_the_slot (self : coordinator) (data : bytes) :
  notify_future self = Some Pending ->
  data = AT_NAME \/ data = AT_ADV ->
  _notification_handler self data =
    (Ret tt,
     {| notify_future := Some (Failed (BadConnectionError "Got AT+ notification"));
        current_command := current_command self;
        notify_response := notify_response self |}).
Proof.
  intros Hf Hat. unfold _notification_handler. rewrite Hf. simpl.
  assert (is_at_notification data = true) as ->; [|done].
  unfold is_at_notification.
  destruct Hat as [-> | ->]; [by rewrite bool_decide_eq_true_2|].
  rewrite (bool_decide_eq_true_2 (AT_ADV = AT_ADV)); [|done].
  apply orb_true_r.
Qed.

Lemma at_notification_fails_the_slot_witness :
  _notification_handler
    {| notify_future := Some Pending;
       current_command := Some command_A;
       notify_response := [x01; x03] |} AT_ADV =
    (Ret tt,
     {| notify_future := Some (Failed (BadConnectionError "Got AT+ notification"));
        current_command := Some command_A;
        notify_response := [x01; x03] |}).
Proof.
  apply (at_notification_fails_the_slot
           {| notify_future := Some Pending;
              current_command := Some command_A;
              notify_response := [x01; x03] |} AT_ADV).
  - reflexivity.
  - right. reflexivity.
Defined.


(** ** Chunking *)

Lemma deliveries_settled (chunks : list bytes) :
  forall (self st : coordinator),
  settled self = true -> st ∈ deliveries self chunks -> st = self.
Proof.
  induction chunks as [|data rest IH]; intros self st Hs Hst.
  - by apply list_elem_of_singleton in Hst.
  - simpl in Hst. apply elem_of_cons in Hst as [->|Hst]; [done|].
    rewrite handler_settled in Hst by done. by apply IH.
Qed.

(** A notification is appended, or the slot is settled once the handler is
    through and the accumulator is as it was. *)
Lemma handler_accumulates (self : coordinator) (data : bytes) :
  let self' := snd (_notification_handler self data) in
  (settled self' = true /\ notify_response self' = notify_response self) \/
  notify_response self' = notify_response self ++ data.
Proof.
  unfold _notification_handler, settled.
  destruct (notify_future self) as [fut|] eqn:Hf; simpl; [|rewrite Hf; auto].
  destruct (done fut) eqn:Hd; simpl; [rewrite Hf; auto|].
  destruct (is_at_notification data); simpl; [auto|].
  repeat case_match; simpl; auto.
Qed.

(** Whatever arrives, the accumulator holds the bytes it held followed by a
    prefix of the bytes that arrived. *)
Lemma deliveries_prefix (chunks : list bytes) :
  forall (self st : coordinator),
  st ∈ deliveries self chunks ->
  exists k, notify_response st = notify_response self ++ k /\
            k `prefix_of` concat chunks.
Proof.
  induction chunks as [|data rest IH]; intros self st Hst.
  - apply list_elem_of_singleton in Hst as ->.
    exists []. by rewrite app_nil_r.
  - simpl in Hst. apply elem_of_cons in Hst as [->|Hst].
    { exists []. rewrite app_nil_r. split; [done|]. apply prefix_nil. }
    destruct (handler_accumulates self data) as [[Hs Heq]|Heq].
    + apply (deliveries_settled _ _ _ Hs) in Hst as ->.
      exists []. rewrite app_nil_r. split; [done|]. apply prefix_nil.
    + apply IH in Hst as (k & Hk & Hpre).
      rewrite Heq in Hk.
      exists (data ++ k). rewrite app_assoc. split; [done|].
      simpl. by apply prefix_app.
Qed.

(** Delivery to a pending request, chunk after chunk, when the bytes do not
    overshoot the declared length, no chunk is an AT sequence, and no prefix
    shorter than the declared length looks like an exception answer: the end
    state is the length check applied to all the bytes. *)
Lemma deliver_within_length (cmd : Command) (chunks : list bytes) :
  forall acc : bytes,
  chunks <> [] \/ Z.of_nat (length acc) <> response_size cmd ->
  Z.of_nat (length (acc ++ concat chunks)) <= response_size cmd ->
  (forall data, data ∈ chunks -> is_at_notification data = false) ->
  (forall p, p `prefix_of` acc ++ concat chunks ->
             Z.of_nat (length p) < response_size cmd ->
             is_exception_response cmd p = false) ->
  deliver {| notify_future := Some Pending;
             current_command := Some cmd;
             notify_response := acc |} chunks =
    {| notify_future := Some (length_check cmd (acc ++ concat chunks));
       current_command := Some cmd;
       notify_response := acc ++ concat chunks |}.
Proof.
  induction chunks as [|data rest IH]; intros acc Hne Hlen Hat Hexc.
  - simpl in *. rewrite app_nil_r in *.
    unfold length_check.
    destruct Hne as [|Hne]; [done|].
    by rewrite (proj2 (Z.eqb_neq _ _) Hne).
  - simpl in Hlen, Hexc. rewrite app_assoc in Hlen, Hexc.
    simpl.
    rewrite (handler_pending (Build_coordinator (Some Pending) (Some cmd) acc)
               cmd data eq_refl eq_refl (Hat data (list_elem_of_here _ _))).
    simpl.
    destruct (Z.of_nat (length (acc ++ data)) =? response_size cmd) eqn:Hfull.
    + (* the length is reached: the chunks that follow are empty *)
      apply Z.eqb_eq in Hfull.
      assert (concat rest = []) as Hrest.
      { apply length_zero_iff_nil. rewrite length_app in Hlen. lia. }
      rewrite deliver_settled.
      * by rewrite app_assoc, Hrest, app_nil_r.
      * unfold settled, length_check. simpl.
        rewrite (proj2 (Z.eqb_eq _ _) Hfull).
        by destruct (is_valid_response cmd (acc ++ data)).
    + apply Z.eqb_neq in Hfull.
      rewrite Hexc; cycle 1.
      { by apply prefix_app_r. }
      { rewrite length_app in Hlen. lia. }
      unfold set_notify_response. simpl.
      rewrite IH, app_assoc; [done|by right|done| |done].
      intros d Hd. apply Hat. by apply list_elem_of_further.
Qed.

(** C2, as the handler has it.  Take a request just issued and any split, into
    at least one chunk, of bytes that are no longer than the declared answer,
    where no chunk is an AT sequence and no prefix shorter than the declared
    length passes the exception test.  Then the accumulator never exceeds the
    declared length, and the end state is fixed by the bytes alone: the future
    holds the bytes if they have the declared length and pass the checksum, a
    [ParseError] if they have it and fail the checksum, and is pending
    otherwise; the accumulator holds all the bytes.  The split plays no part. *)
Theorem chunking_within_declared_length (cmd : Command) (chunks : list bytes) :
  chunks <> [] ->
  Z.of_nat (length (concat chunks)) <= response_size cmd ->
  (forall data, data ∈ chunks -> is_at_notification data = false) ->
  (forall p, p `prefix_of` concat chunks ->
             Z.of_nat (length p) < response_size cmd ->
             is_exception_response cmd p = false) ->
  (forall st, st ∈ deliveries (fresh cmd) chunks ->
              Z.of_nat (length (notify_response st)) <= response_size cmd) /\
  deliver (fresh cmd) chunks =
    {| notify_future := Some (length_check cmd (concat chunks));
       current_command := Some cmd;
       notify_response := concat chunks |}.
Proof.
  intros Hne Hlen Hat Hexc. split.
  - intros st (k & -> & Hpre%prefix_length)%deliveries_prefix. simpl. lia.
  - apply (deliver_within_length cmd chunks []); auto.
Qed.

Lemma chunking_within_declared_length_witness :
  (forall st, st ∈ deliveries (fresh command_A) [take 4 answer_7; drop 4 answer_7] ->
              Z.of_nat (length (notify_response st)) <= 7) /\
  deliver (fresh command_A) [take 4 answer_7; drop 4 answer_7] =
    {| notify_future := Some (Resolved answer_7);
       current_command := Some command_A;
       notify_response := answer_7 |}.
Proof.
  apply (chunking_within_declared_length command_A
           [take 4 answer_7; drop 4 answer_7]).
  - discriminate.
  - vm_compute. discriminate.
  - intros data [->|[->|[]%elem_of_nil]%elem_of_cons]%elem_of_cons; reflexivity.
  - intros p [k Hk] _.
    destruct p as [|a [|b p]]; [reflexivity..|].
    simpl in Hk. injection Hk as _ Hb _. subst b. reflexivity.
Defined.

(** C2 as stated fails: the same 8 bytes, for a command that declares 7, end
    in a resolved future when they arrive as 7 + 1, and in a pending future
    with 8 bytes in the accumulator when they arrive as 4 + 4. *)
Lemma chunking_changes_the_outcome :
  concat [answer_7; [x00]] = concat [take 4 answer_7; drop 4 answer_7 ++ [x00]] /\
  response_size command_A = 7 /\
  notify_future (deliver (fresh command_A) [answer_7; [x00]])
    = Some (Resolved answer_7) /\
  deliver (fresh command_A) [take 4 answer_7; drop 4 answer_7 ++ [x00]]
    = {| notify_future := Some Pending;
         current_command := Some command_A;
         notify_response := answer_7 ++ [x00] |} /\
  response_size command_A < Z.of_nat (length (answer_7 ++ [x00])).
Proof. repeat split. Qed.

(** C4 at a short exception answer.  For a register read whose exception test
    looks at the second byte, a first notification of two bytes [01 83] passes
    the test, and the handler raises [IndexError] at [notify_response[2]]: the
    future is left pending, no [ModbusError] is set. *)
Theorem short_exception_answer_raises :
  Z.of_nat (length [x01; x83]) <> response_size command_A /\
  is_exception_response command_A [x01; x83] = true /\
  _notification_handler (fresh command_A) [x01; x83] =
    (Raise IndexError,
     {| notify_future := Some Pending;
        current_command := Some command_A;
        notify_response := [x01; x83] |}).
Proof. repeat split. discriminate. Qed.

(** * The polling coroutine *)

(** ** Calls on the client *)

Section Calls.
Context {A B : Type}.

Lemma no_disconnect_ret (a : A) : no_disconnect (ret a).
Proof. intros w. exists []. split; [by rewrite app_nil_r|apply not_elem_of_nil]. Qed.

Lemma no_disconnect_raise (e : exn) : no_disconnect (raise (A:=A) e).
Proof. intros w. exists []. split; [by rewrite app_nil_r|apply not_elem_of_nil]. Qed.

Lemma no_disconnect_lift (o : outcome A) : no_disconnect (lift o).
Proof. intros w. exists []. split; [by rewrite app_nil_r|apply not_elem_of_nil]. Qed.

Lemma no_disconnect_deadline : no_disconnect (deadline (A:=A)).
Proof. intros w. exists []. split; [by rewrite app_nil_r|apply not_elem_of_nil]. Qed.

Lemma no_disconnect_bind (m : M A) (k : A -> M B) :
  no_disconnect m -> (forall a, no_disconnect (k a)) -> no_disconnect (bind m k).
Proof.
  intros Hm Hk w. unfold bind.
  destruct (Hm w) as (tr & Htr & Hno).
  destruct (m w) as [[a|e] w']; simpl in *.
  - destruct (Hk a w') as (tr' & Htr' & Hno').
    exists (tr ++ tr'). rewrite Htr', Htr, app_assoc. split; [done|].
    by apply not_elem_of_app.
  - by exists tr.
Qed.

Lemma no_disconnect_try_except (m : M A) (handler : exn -> option (M A)) :
  no_disconnect m ->
  (forall e h, handler e = Some h -> no_disconnect h) ->
  no_disconnect (try_except m handler).
Proof.
  intros Hm Hh w. unfold try_except.
  destruct (Hm w) as (tr & Htr & Hno).
  destruct (m w) as [[a|e] w']; simpl in *; [by exists tr|].
  destruct (handler e) as [h|] eqn:Hhe; [|by exists tr].
  destruct (Hh e h Hhe w') as (tr' & Htr' & Hno').
  exists (tr ++ tr'). rewrite Htr', Htr, app_assoc. split; [done|].
  by apply not_elem_of_app.
Qed.

Lemma no_disconnect_timeout_block (m : M A) :
  no_disconnect m -> no_disconnect (timeout_block m).
Proof.
  intros Hm w. unfold timeout_block.
  destruct (Hm {| self_of := self_of w; timed_out := false; calls := calls w |})
    as (tr & Htr & Hno).
  exists tr. split; [|done].
  destruct (m _) as [[a|e] w']; simpl in *; [done|].
  destruct e; try done. by destruct (timed_out w').
Qed.
End Calls.

Lemma no_disconnect_update_self (f : coordinator -> coordinator) :
  no_disconnect (update_self f).
Proof. intros w. exists []. split; [by rewrite app_nil_r|apply not_elem_of_nil]. Qed.

Lemma no_disconnect_called (c : call) : c <> Disconnect -> no_disconnect (called c).
Proof.
  intros Hc w. exists [c]. split; [done|].
  intros Hin%list_elem_of_singleton. by apply Hc.
Qed.

Lemma no_disconnect_ends (e : ending) : no_disconnect (ends e).
Proof.
  destruct e; [apply no_disconnect_ret|apply no_disconnect_raise|apply no_disconnect_deadline].
Qed.

Create HintDb calls.
#[local] Hint Resolve no_disconnect_ret no_disconnect_raise no_disconnect_lift
  no_disconnect_deadline no_disconnect_bind no_disconnect_try_except
  no_disconnect_timeout_block no_disconnect_update_self no_disconnect_called
  no_disconnect_ends : calls.
#[local] Hint Extern 1 (_ <> Disconnect) => discriminate : calls.

Lemma no_disconnect_await_call (c : call) (a : awaited) :
  c <> Disconnect -> no_disconnect (await_call c a).
Proof. intros Hc. unfold await_call. auto 10 with calls. Qed.
#[local] Hint Resolve no_disconnect_await_call : calls.

Lemma no_disconnect_wait_for (x : exchange) : no_disconnect (wait_for x).
Proof.
  unfold wait_for. apply no_disconnect_bind; [auto with calls|].
  intros _ w.
  destruct (notify_future (self_of w)) as [[| | |]|];
    [|apply no_disconnect_ret|apply no_disconnect_raise..].
  apply no_disconnect_bind; [auto with calls|].
  intros _. destruct (otherwise x); auto with calls.
Qed.

Lemma no_disconnect_request {V} (dev : Device V) command x parsed_data :
  no_disconnect (request dev command x parsed_data).
Proof.
  unfold request.
  do 4 (apply no_disconnect_bind; [auto with calls|intros _]).
  apply no_disconnect_bind; [apply no_disconnect_wait_for|intros res].
  auto 10 with calls.
Qed.

Lemma no_disconnect_poll {V} (dev : Device V) s commands :
  forall i parsed_data, no_disconnect (poll dev s i commands parsed_data).
Proof.
  induction commands as [|command rest IH]; intros i parsed_data; simpl.
  - apply no_disconnect_ret.
  - apply no_disconnect_bind; [|auto].
    apply no_disconnect_try_except; [apply no_disconnect_request|].
    intros e h. destruct (logged e); [|done].
    intros [= <-]. apply no_disconnect_ret.
Qed.

(** What the coroutine runs inside [try ... finally], for a known device. *)
Lemma no_disconnect_session {V} (dev : Device V) (s : script) :
  no_disconnect
    (try_except
       (parsed_data <- timeout_block
          (await_call Connect {| arriving := []; ending_of := connect s |} ;;
           await_call StartNotify (start_notify s) ;;
           poll dev s 0 (polling_commands dev) ∅) ;;
        ret (Some parsed_data))
       (fun e => if gives_up e then Some (ret None) else None)).
Proof.
  apply no_disconnect_try_except.
  - apply no_disconnect_bind; [|auto with calls].
    apply no_disconnect_timeout_block.
    do 2 (apply no_disconnect_bind; [auto with calls|intros _]).
    apply no_disconnect_poll.
  - intros e h. destruct (gives_up e); [|done].
    intros [= <-]. apply no_disconnect_ret.
Qed.

(** C7.  Once the device has been found and the client created, every run
    calls [disconnect] exactly once, as the last call on the client: whatever
    [connect], [start_notify], the writes, the notifications, the parsers and
    the timeouts do, and whether the run returns or raises.  This covers the
    run in which [connect] succeeds and [start_notify] fails. *)
Theorem disconnect_exactly_once {V} (dev : Device V) (s : script) (w : world) :
  ble_device s <> None ->
  exists tr,
    calls (snd (_async_update_data (Some dev) s w)) = calls w ++ tr ++ [Disconnect] /\
    Disconnect ∉ tr.
Proof.
  intros Hdev. unfold _async_update_data.
  destruct (ble_device s) as [[]|]; [|done].
  unfold try_finally.
  destruct (no_disconnect_session dev s w) as (tr & Htr & Hno).
  destruct (try_except _ _ w) as [o w']. simpl in Htr.
  exists tr. split; [|done].
  unfold bind, called, update_self. simpl.
  destruct (disconnect s); simpl; by rewrite Htr, app_assoc.
Qed.

Lemma disconnect_exactly_once_witness :
  exists tr,
    calls (snd (_async_update_data (Some sample_device)
                  {| ble_device := Some tt;
                     connect := Completes;
                     start_notify := {| arriving := []; ending_of := Throws (BleakError "subscribe failed") |};
                     exchanges := fun _ => answered;
                     disconnect_arriving := [];
                     disconnect := None |} start))
      = calls start ++ tr ++ [Disconnect] /\
    Disconnect ∉ tr.
Proof.
  apply (disconnect_exactly_once sample_device
           {| ble_device := Some tt;
              connect := Completes;
              start_notify := {| arriving := []; ending_of := Throws (BleakError "subscribe failed") |};
              exchanges := fun _ => answered;
              disconnect_arriving := [];
              disconnect := None |} start).
  discriminate.
Defined.

(** C9.  With no device model ([build_device] returned [None]), every run
    returns [None] and leaves the world as it was: no call is made on any
    client, and the future, the command and the accumulator keep their
    values. *)
Theorem unknown_device_type_returns_none {V} (s : script) (w : world) :
  _async_update_data (V:=V) None s w = (Ret None, w).
Proof. unfold _async_update_data. by destruct (ble_device s). Qed.

(** ** One command *)

(** The outcome of the inner [try] body does not depend on the world it
    starts from, and the body makes one call: the write. *)
Lemma request_from_start {V} (dev : Device V) command x parsed_data w :
  fst (request dev command x parsed_data w) =
    match attempt dev command x with
    | Ret parsed => Ret (parsed ∪ parsed_data)
    | Raise e => Raise e
    end /\
  calls (snd (request dev command x parsed_data w)) =
    calls w ++ [WriteGattChar (cmd_bytes command)].
Proof.
  unfold attempt, request, await_call, wait_for, bind, update_self, called, ends, lift,
    ret, raise, deadline, set_notify_response, set_notify_future, set_current_command.
  simpl.
  repeat case_match; simplify_eq/=; rewrite ?(right_id_L ∅ (∪)); split; congruence.
Qed.

Lemma handler_set_by_handler self data :
  set_by_handler self -> set_by_handler (snd (_notification_handler self data)).
Proof.
  unfold set_by_handler, _notification_handler.
  destruct (notify_future self) as [[| | |]|] eqn:Hf; simpl; rewrite ?Hf; try done.
  repeat case_match; simpl in *; simplify_eq; done.
Qed.

Lemma deliver_set_by_handler chunks :
  forall self, set_by_handler self -> set_by_handler (deliver self chunks).
Proof.
  induction chunks as [|data rest IH]; intros self Hs; [done|].
  simpl. by apply IH, handler_set_by_handler.
Qed.

(** With writes and parsers that raise only logged exceptions and a wait
    that is not cancelled from outside, the inner [try] body ends with a value, with a logged exception, or with the
    cancellation the deadline sent. *)
Lemma request_raises {V} (dev : Device V) command x parsed_data w :
  throws_only logged (ending_of (write x)) ->
  otherwise x <> TaskCancelled ->
  (forall res, raises_only logged (parse_response command res)) ->
  (forall body, raises_only logged (parse dev (starting_address command) body)) ->
  match request dev command x parsed_data w with
  | (Ret _, _) => True
  | (Raise e, w') => logged e = true \/ (e = CancelledError /\ timed_out w' = true)
  end.
Proof.
  intros Hw Hwait Hpr Hp.
  pose proof (deliver_set_by_handler (answer x) _
                (deliver_set_by_handler (arriving (write x)) (fresh command) I)) as Hfut.
  unfold set_by_handler, fresh in Hfut.
  unfold request, await_call, wait_for, bind, update_self, called, ends, lift,
    ret, raise, deadline, set_notify_response, set_notify_future, set_current_command.
  simpl.
  destruct (ending_of (write x)) as [|e|]; simpl in *; [|by left|by right].
  destruct (notify_future _) as [[|res|err|]|]; simpl; try done.
  - destruct (otherwise x); simpl; [by left|by right|done].
  - specialize (Hpr res). destruct (parse_response command res) as [body|e]; simpl in *;
      [|by left].
    specialize (Hp body). destruct (parse dev _ body); simpl in *; [done|by left].
  - by left.
Qed.

(** ** The loop *)

(** The loop lets through only the cancellation the deadline sent, when
    writes and parsers raise only logged exceptions. *)
Lemma poll_raises {V} (dev : Device V) s commands :
  forall i parsed_data w,
  (forall k command, commands !! k = Some command ->
     throws_only logged (ending_of (write (exchanges s (i + k)))) /\
     otherwise (exchanges s (i + k)) <> TaskCancelled /\
     (forall res, raises_only logged (parse_response command res)) /\
     (forall body, raises_only logged (parse dev (starting_address command) body))) ->
  match poll dev s i commands parsed_data w with
  | (Ret _, _) => True
  | (Raise e, w') => e = CancelledError /\ timed_out w' = true
  end.
Proof.
  induction commands as [|command rest IH]; intros i parsed_data w Hall; [done|].
  simpl. unfold bind, try_except.
  destruct (Hall 0%nat command eq_refl) as (Hw & Hwait & Hpr & Hp).
  rewrite Nat.add_0_r in Hw, Hwait.
  pose proof (request_raises dev command (exchanges s i) parsed_data w Hw Hwait Hpr Hp)
    as Hreq.
  assert (forall pd w1, match poll dev s (S i) rest pd w1 with
                        | (Ret _, _) => True
                        | (Raise e, w') => e = CancelledError /\ timed_out w' = true
                        end) as Hrest.
  { intros pd w1. apply IH. intros k c Hk.
    replace (S i + k)%nat with (i + S k)%nat by lia. by apply Hall. }
  destruct (request dev command (exchanges s i) parsed_data w) as [[parsed|e] w1].
  - apply Hrest.
  - destruct (logged e) eqn:He.
    + apply Hrest.
    + destruct Hreq as [?|[-> ?]]; [congruence|done].
Qed.

(** When every attempt succeeds or ends in a logged exception, the loop
    requests every command, in order, and returns the harvest. *)
Lemma poll_harvest {V} (dev : Device V) s commands :
  forall i parsed_data w,
  (forall k command, commands !! k = Some command ->
     raises_only logged (attempt dev command (exchanges s (i + k)))) ->
  fst (poll dev s i commands parsed_data w) = Ret (harvest dev s i commands parsed_data) /\
  calls (snd (poll dev s i commands parsed_data w)) =
    calls w ++ ((fun command => WriteGattChar (cmd_bytes command)) <$> commands).
Proof.
  induction commands as [|command rest IH]; intros i parsed_data w Hall.
  - simpl. by rewrite app_nil_r.
  - simpl. unfold bind, try_except.
    pose proof (Hall 0%nat command eq_refl) as Hc. rewrite Nat.add_0_r in Hc.
    destruct (request_from_start dev command (exchanges s i) parsed_data w)
      as [Hout Hcalls].
    assert (forall k c, rest !! k = Some c ->
              raises_only logged (attempt dev c (exchanges s (S i + k)))) as Hrest.
    { intros k c Hk. replace (S i + k)%nat with (i + S k)%nat by lia. by apply Hall. }
    destruct (request dev command (exchanges s i) parsed_data w) as [o w1].
    simpl in Hout, Hcalls. subst o.
    destruct (attempt dev command (exchanges s i)) as [parsed|e]; simpl in Hc.
    + destruct (IH (S i) (parsed ∪ parsed_data) w1 Hrest) as [-> ->].
      by rewrite Hcalls, <- app_assoc.
    + rewrite Hc. unfold ret.
      destruct (IH (S i) parsed_data w1 Hrest) as [-> ->].
      by rewrite Hcalls, <- app_assoc.
Qed.

(** The fields of the harvest: those the dict had, and those of the attempts
    that succeeded; a failed attempt adds none. *)
Lemma harvest_fields {V} (dev : Device V) s commands (key : string) :
  forall i (parsed_data : gmap string V),
  is_Some (harvest dev s i commands parsed_data !! key) <->
  is_Some (parsed_data !! key) \/
  exists k command parsed,
    commands !! k = Some command /\
    attempt dev command (exchanges s (i + k)) = Ret parsed /\
    is_Some (parsed !! key).
Proof.
  induction commands as [|command rest IH]; intros i parsed_data; simpl.
  - split; [by left|]. intros [?|(k & c & p & Hk & _)]; [done|]. done.
  - rewrite IH. split.
    + intros [Hin|(k & c & p & Hk & Ha & Hp)].
      * destruct (attempt dev command (exchanges s i)) as [parsed|e] eqn:Ha; [|by left].
        apply lookup_union_is_Some in Hin as [Hin|Hin]; [|by left].
        right. exists 0%nat, command, parsed. by rewrite Nat.add_0_r.
      * right. exists (S k), c, p.
        replace (i + S k)%nat with (S i + k)%nat by lia. done.
    + intros [Hin|(k & c & p & Hk & Ha & Hp)].
      * left. destruct (attempt dev command (exchanges s i)); [|done].
        apply lookup_union_is_Some. by right.
      * destruct k as [|k]; simpl in Hk.
        -- injection Hk as <-. rewrite Nat.add_0_r in Ha. rewrite Ha.
           left. apply lookup_union_is_Some. by left.
        -- right. exists k, c, p.
           replace (S i + k)%nat with (i + S k)%nat by lia. done.
Qed.

(** ** The whole run *)

Lemma await_call_completes (c : call) (a : awaited) (w : world) :
  ending_of a = Completes ->
  await_call c a w =
    (Ret tt, {| self_of := deliver (self_of w) (arriving a);
                timed_out := timed_out w;
                calls := calls w ++ [c] |}).
Proof. intros Ha. unfold await_call, bind, called, update_self, ends. by rewrite Ha. Qed.

(** A run in which [connect] and [start_notify] complete, every attempt
    succeeds or ends in a logged exception, and [disconnect] raises nothing:
    every command is written and the run returns the harvest. *)
Lemma run_harvest {V} (dev : Device V) (s : script) (w : world) :
  ble_device s <> None ->
  connect s = Completes ->
  ending_of (start_notify s) = Completes ->
  disconnect s = None ->
  (forall i command, polling_commands dev !! i = Some command ->
     raises_only logged (attempt dev command (exchanges s i))) ->
  let snapshot := harvest dev s 0 (polling_commands dev) ∅ in
  fst (_async_update_data (Some dev) s w) = Ret (Some snapshot) /\
  calls (snd (_async_update_data (Some dev) s w)) =
    calls w ++ [Connect; StartNotify]
      ++ ((fun command => WriteGattChar (cmd_bytes command)) <$> polling_commands dev)
      ++ [Disconnect] /\
  (forall key,
     is_Some (snapshot !! key) <->
     exists i command parsed,
       polling_commands dev !! i = Some command /\
       attempt dev command (exchanges s i) = Ret parsed /\
       is_Some (parsed !! key)).
Proof.
  intros Hdev Hconn Hsub Hdisc Hall snapshot.
  assert (forall key,
     is_Some (snapshot !! key) <->
     exists i command parsed,
       polling_commands dev !! i = Some command /\
       attempt dev command (exchanges s i) = Ret parsed /\
       is_Some (parsed !! key)) as Hfields.
  { intros key. unfold snapshot. rewrite harvest_fields. split.
    - intros [Hin|?]; [|done]. rewrite lookup_empty in Hin. by destruct Hin.
    - by right. }
  assert (exists w', _async_update_data (Some dev) s w = (Ret (Some snapshot), w') /\
            calls w' = calls w ++ [Connect; StartNotify]
              ++ ((fun command => WriteGattChar (cmd_bytes command)) <$> polling_commands dev)
              ++ [Disconnect]) as (w' & -> & Hw').
  { unfold _async_update_data.
    destruct (ble_device s) as [[]|]; [|done].
    unfold try_finally, try_except, timeout_block.
    unfold bind at 1 2 3.
    rewrite !await_call_completes by done.
    simpl.
    match goal with |- context [poll dev s 0 _ ∅ ?w0] =>
      destruct (poll_harvest dev s (polling_commands dev) 0 ∅ w0 Hall) as [Hout Hcalls];
      destruct (poll dev s 0 (polling_commands dev) ∅ w0) as [o w1]
    end.
    simpl in Hout, Hcalls. subst o. simpl.
    unfold bind, called, update_self. rewrite Hdisc. simpl.
    eexists. split; [done|]. simpl.
    rewrite Hcalls. by rewrite <- !app_assoc. }
  done.
Qed.

(** C8 as stated fails: command A ends in a response timeout, which is
    logged, and the loop goes on to command B; the 15 s deadline, which covers
    the loop as well as the connection, then expires during B's wait, and the
    run returns [None], not a dict. *)
Lemma deadline_after_logged_failure_returns_none :
  let s := run_of (silent ResponseTimeout) (silent CycleDeadline) None in
  connect s = Completes /\
  ending_of (start_notify s) = Completes /\
  attempt sample_device command_A (exchanges s 0) = Raise TimeoutError /\
  fst (_async_update_data (Some sample_device) s start) = Ret None /\
  calls (snd (_async_update_data (Some sample_device) s start)) =
    [Connect; StartNotify; WriteGattChar (cmd_bytes command_A);
     WriteGattChar (cmd_bytes command_B); Disconnect].
Proof. repeat split. Qed.

(** The block under the deadline, on a run with expected errors: what leaves
    it is a value or an exception the outer clauses catch. *)
Lemma session_raises {V} (dev : Device V) (s : script) (w : world) :
  expected_errors dev s ->
  raises_only gives_up
    (fst (timeout_block
            (await_call Connect {| arriving := []; ending_of := connect s |} ;;
             await_call StartNotify (start_notify s) ;;
             poll dev s 0 (polling_commands dev) ∅) w)).
Proof.
  intros [Hconn Hsub Hwrite Hwait Hpr Hp _].
  unfold timeout_block, bind, await_call, called, update_self, ends, ret, raise, deadline.
  simpl.
  destruct (connect s) as [|e|]; simpl in *; [|by destruct e|done].
  destruct (ending_of (start_notify s)) as [|e|]; simpl in *; [|by destruct e|done].
  match goal with |- context [poll dev s 0 _ ∅ ?w0] =>
    pose proof (poll_raises dev s (polling_commands dev) 0 ∅ w0) as Hpoll;
    destruct (poll dev s 0 (polling_commands dev) ∅ w0) as [[parsed|e] w1]
  end; [done|].
  destruct Hpoll as [-> ->]; [|done].
  intros k command Hk. split; [exact (Hwrite k command Hk)|].
  split; [exact (Hwait k command Hk)|].
  apply list_elem_of_lookup_2 in Hk. split; intros ?; auto.
Qed.

(** C6, as the coroutine has it.  A run returns, [None] or a dict, whenever
    its errors are the expected ones: [connect] and [start_notify] raise
    nothing but [TimeoutError] or [BleakError], the writes and the parsers
    raise nothing but the five classes the loop logs, the task is not
    cancelled from outside at any await, and [disconnect] raises nothing;
    timeouts of the answer and of the 15 s deadline are covered. *)
Theorem returns_on_expected_errors {V} (bluetti_device : option (Device V))
    (s : script) (w : world) :
  (forall dev, bluetti_device = Some dev -> expected_errors dev s) ->
  exists result, fst (_async_update_data bluetti_device s w) = Ret result.
Proof.
  intros Hexp. unfold _async_update_data.
  destruct (ble_device s) as [[]|]; [|by exists None].
  destruct bluetti_device as [dev|]; [|by exists None].
  specialize (Hexp dev eq_refl).
  pose proof (session_raises dev s w Hexp) as Hsession.
  unfold try_finally, try_except.
  unfold bind at 1.
  destruct (timeout_block _ w) as [[parsed|e] w1]; simpl in Hsession.
  - unfold bind, called, update_self, ret.
    rewrite (disconnect_expected dev s Hexp). simpl. by eexists.
  - rewrite Hsession.
    unfold bind, called, update_self, ret.
    rewrite (disconnect_expected dev s Hexp). simpl. by eexists.
Qed.

Lemma returns_on_expected_errors_witness :
  exists result,
    fst (_async_update_data (Some sample_device)
           (run_of at_name_received (silent CycleDeadline) None) start) = Ret result.
Proof.
  apply (returns_on_expected_errors (Some sample_device)
           (run_of at_name_received (silent CycleDeadline) None) start).
  intros dev [= <-]. split.
  - exact I.
  - exact I.
  - intros [|[|i]] command Hc; exact I.
  - intros [|[|i]] command Hc; discriminate.
  - intros command res [->|[->|[]%elem_of_nil]%elem_of_cons]%elem_of_cons; exact I.
  - intros command body _. exact I.
  - reflexivity.
Defined.

(** C6 as stated fails: when [disconnect] raises in the [finally] clause, the
    exception leaves the coroutine, here after both commands were answered. *)
Lemma disconnect_error_reaches_the_caller :
  fst (_async_update_data (Some sample_device)
         (run_of answered answered (Some (BleakError "disconnect failed"))) start)
  = Raise (BleakError "disconnect failed").
Proof. reflexivity. Qed.

(** C1 at a run of two commands.  The handler fails command A's future with
    [BadConnectionError] on [AT+NAME?\r]; the loop logs it and goes on: command
    B is written on the same connection, and its fields are returned. *)
Theorem bad_connection_does_not_stop_the_loop :
  let s := run_of at_name_received answered None in
  attempt sample_device command_A (exchanges s 0)
    = Raise (BadConnectionError "Got AT+ notification") /\
  _async_update_data (Some sample_device) s start =
    (Ret (Some ({[ "70" := [x00; x2a] ]} ∪ ∅)),
     {| self_of := {| notify_future := Some (Resolved answer_7);
                      current_command := Some command_B;
                      notify_response := answer_7 |};
        timed_out := false;
        calls := [Connect; StartNotify; WriteGattChar (cmd_bytes command_A);
                  WriteGattChar (cmd_bytes command_B); Disconnect] |}).
Proof. split; reflexivity. Qed.

(** * Further properties *)

(** The three branches of the handler after the append.  For a pending
    request and a chunk that is not an AT sequence, with [acc] the accumulator
    followed by the chunk: if [acc] has the declared length, the future holds
    [acc] when the checksum passes and a [ParseError] when it fails; otherwise,
    if [acc] passes the exception test and has a byte at index 2, the future
    holds a [ModbusError] whose message names the command and that byte;
    otherwise, if it passes the test without such a byte, the handler raises
    [IndexError] and the future stays pending; otherwise nothing is settled.
    In every branch the accumulator is [acc]. *)
Theorem pending_request_branches (self : coordinator) (cmd : Command) (data : bytes) :
  notify_future self = Some Pending ->
  current_command self = Some cmd ->
  is_at_notification data = false ->
  let acc := notify_response self ++ data in
  _notification_handler self data =
    if Z.of_nat (length acc) =? response_size cmd then
      (Ret tt,
       {| notify_future :=
            Some (if is_valid_response cmd acc then Resolved acc
                  else Failed (ParseError "Failed checksum"));
          current_command := Some cmd;
          notify_response := acc |})
    else if is_exception_response cmd acc then
      match acc !! 2%nat with
      | Some code =>
        (Ret tt,
         {| notify_future :=
              Some (Failed (ModbusError
                ("MODBUS Exception " +:+ cmd_str cmd +:+ ": " +:+ pretty (Byte.to_N code))));
            current_command := Some cmd;
            notify_response := acc |})
      | None =>
        (Raise IndexError,
         {| notify_future := Some Pending;
            current_command := Some cmd;
            notify_response := acc |})
      end
    else
      (Ret tt,
       {| notify_future := Some Pending;
          current_command := Some cmd;
          notify_response := acc |}).
Proof.
  intros Hf Hc Hat acc.
  rewrite (handler_pending self cmd data Hf Hc Hat).
  unfold length_check, set_notify_future, set_notify_response. simpl.
  rewrite Hf, Hc. fold acc.
  destruct (Z.of_nat (length acc) =? response_size cmd) eqn:Hlen; [done|].
  destruct (is_exception_response cmd acc); [|done].
  by destruct (acc !! 2%nat).
Qed.

Lemma pending_request_branches_witness :
  _notification_handler
    {| notify_future := Some Pending;
       current_command := Some command_A;
       notify_response := [x01; x83] |} [x02; xc0; xf1] =
    (Ret tt,
     {| notify_future :=
          Some (Failed (ModbusError "MODBUS Exception ReadHoldingRegisters(10, 1): 2"));
        current_command := Some command_A;
        notify_response := [x01; x83; x02; xc0; xf1] |}).
Proof.
  apply (pending_request_branches
           {| notify_future := Some Pending;
              current_command := Some command_A;
              notify_response := [x01; x83] |} command_A [x02; xc0; xf1]);
    reflexivity.
Defined.

(** When discovery does not find the device, the run returns [None] and
    leaves the world as it was: no client is created and no call is made. *)
Theorem unavailable_device_returns_none {V} (bluetti_device : option (Device V))
    (s : script) (w : world) :
  ble_device s = None ->
  _async_update_data bluetti_device s w = (Ret None, w).
Proof. intros Hs. unfold _async_update_data. by rewrite Hs. Qed.

Lemma unavailable_device_returns_none_witness :
  _async_update_data (Some sample_device)
    {| ble_device := None;
       connect := Completes;
       start_notify := quiet_call;
       exchanges := fun _ => answered;
       disconnect_arriving := [];
       disconnect := None |} start = (Ret None, start).
Proof.
  apply (unavailable_device_returns_none (Some sample_device)
           {| ble_device := None;
              connect := Completes;
              start_notify := quiet_call;
              exchanges := fun _ => answered;
              disconnect_arriving := [];
              disconnect := None |} start).
  reflexivity.
Defined.

(** ** The accumulator and the result *)

Lemma deliver_app (chunks more : list bytes) :
  forall self, deliver self (chunks ++ more) = deliver (deliver self chunks) more.
Proof. induction chunks as [|data rest IH]; intros self; [done|]. simpl. apply IH. Qed.

(** Chunks are appended whole and in order until the slot settles, and not at
    all afterwards: whatever the state and the notifications, the accumulator
    ends as what it held followed by the first [n] chunks, for some [n]. *)
Theorem chunks_are_appended_whole (self : coordinator) (chunks : list bytes) :
  exists n, notify_response (deliver self chunks)
            = notify_response self ++ concat (take n chunks).
Proof.
  revert self. induction chunks as [|data rest IH]; intros self.
  - exists 0%nat. simpl. by rewrite app_nil_r.
  - simpl. destruct (handler_accumulates self data) as [[Hs Heq]|Heq].
    + exists 0%nat. rewrite deliver_settled by done.
      simpl. by rewrite app_nil_r.
    + destruct (IH (snd (_notification_handler self data))) as [n Hn].
      exists (S n). rewrite Hn, Heq. simpl. by rewrite app_assoc.
Qed.

Lemma handler_result_checked self data :
  result_checked self -> result_checked (snd (_notification_handler self data)).
Proof.
  intros Hinv. unfold _notification_handler.
  destruct (notify_future self) as [fut|] eqn:Hf; [|done].
  destruct fut; simpl; try done.
  destruct (is_at_notification data); simpl.
  { intros cmd res _ Hres. simpl in Hres. done. }
  destruct (current_command self) as [cmd0|] eqn:Hc; simpl.
  - destruct (Z.of_nat (length (notify_response self ++ data)) =? response_size cmd0)
      eqn:Hlen.
    + destruct (is_valid_response cmd0 (notify_response self ++ data)) eqn:Hv; simpl.
      * intros cmd res Hcmd Hres. simpl in *. simplify_eq.
        split; [by apply Z.eqb_eq|done].
      * intros cmd res _ Hres. simpl in Hres. done.
    + destruct (is_exception_response cmd0 (notify_response self ++ data)); simpl.
      * destruct ((notify_response self ++ data) !! 2%nat); simpl;
          intros cmd res _ Hres; simpl in Hres; congruence.
      * intros cmd res _ Hres; simpl in Hres; congruence.
  - intros cmd res _ Hres. simpl in Hres. congruence.
Qed.

Lemma deliver_result_checked chunks :
  forall self, result_checked self -> result_checked (deliver self chunks).
Proof.
  induction chunks as [|data rest IH]; intros self Hs; [done|].
  simpl. by apply IH, handler_result_checked.
Qed.

Lemma deliver_current_command chunks :
  forall self, current_command (deliver self chunks) = current_command self.
Proof.
  induction chunks as [|data rest IH]; intros self; [done|].
  simpl. by rewrite IH, handler_current_command.
Qed.

(** The handler hands over checked answers only.  When notifications turn a
    pending request into a result, the result has the command's declared
    length, passed the command's checksum test, and consists of whole chunks
    in their order of arrival, after what the accumulator held. *)
Theorem result_has_length_and_checksum (self : coordinator) (cmd : Command)
    (chunks : list bytes) (res : bytes) :
  notify_future self = Some Pending ->
  current_command self = Some cmd ->
  notify_future (deliver self chunks) = Some (Resolved res) ->
  Z.of_nat (length res) = response_size cmd /\
  is_valid_response cmd res = true /\
  exists n, res = notify_response self ++ concat (take n chunks).
Proof.
  intros Hf Hc Hres.
  assert (result_checked self) as Hinv.
  { intros c r _ Hr. congruence. }
  apply (deliver_result_checked chunks) in Hinv.
  destruct (Hinv cmd res) as (Hlen & Hvalid & Hacc); [|done|].
  { by rewrite deliver_current_command. }
  split; [done|]. split; [done|].
  destruct (chunks_are_appended_whole self chunks) as [n Hn].
  exists n. by rewrite Hacc.
Qed.

Lemma result_has_length_and_checksum_witness :
  Z.of_nat (length answer_7) = response_size command_A /\
  is_valid_response command_A answer_7 = true /\
  exists n, answer_7 =
    notify_response (fresh command_A) ++ concat (take n [take 4 answer_7; drop 4 answer_7; [x00]]).
Proof.
  apply (result_has_length_and_checksum (fresh command_A) command_A
           [take 4 answer_7; drop 4 answer_7; [x00]] answer_7); reflexivity.
Defined.

(** ** One command, step by step *)

(** The inner [try] body, spelled out: the write, then the future as the
    notifications of the exchange leave it, then the parsers. *)
Lemma request_unfold {V} (dev : Device V) command x parsed_data w :
  let world_with self late :=
    {| self_of := self; timed_out := late;
       calls := calls w ++ [WriteGattChar (cmd_bytes command)] |} in
  let during_write := deliver (fresh command) (arriving (write x)) in
  let after := deliver (fresh command) (stream x) in
  request dev command x parsed_data w =
    match ending_of (write x) with
    | Throws e => (Raise e, world_with during_write (timed_out w))
    | Expires => (Raise CancelledError, world_with during_write true)
    | Completes =>
      match notify_future after with
      | Some (Resolved res) =>
        (match parse_response command res with
         | Ret body =>
           match parse dev (starting_address command) body with
           | Ret parsed => Ret (parsed ∪ parsed_data)
           | Raise e => Raise e
           end
         | Raise e => Raise e
         end, world_with after (timed_out w))
      | Some (Failed err) => (Raise err, world_with after (timed_out w))
      | Some Cancelled => (Raise CancelledError, world_with after (timed_out w))
      | None => (Raise (OtherException "TypeError"), world_with after (timed_out w))
      | Some Pending =>
        match otherwise x with
        | ResponseTimeout =>
          (Raise TimeoutError,
           world_with (set_notify_future (Some Cancelled) after) (timed_out w))
        | CycleDeadline =>
          (Raise CancelledError,
           world_with (set_notify_future (Some Cancelled) after) true)
        | TaskCancelled =>
          (Raise CancelledError,
           world_with (set_notify_future (Some Cancelled) after) (timed_out w))
        end
      end
    end.
Proof.
  unfold stream. rewrite deliver_app.
  unfold request, await_call, wait_for, bind, update_self, called, ends, lift,
    ret, raise, deadline, fresh.
  simpl.
  destruct (ending_of (write x)); simpl; try done.
  destruct (notify_future _) as [[| | |]|]; simpl; try done.
  - by destruct (otherwise x).
  - destruct (parse_response command res); simpl; [|done].
    by destruct (parse dev (starting_address command) a).
Qed.

Lemma attempt_unfold {V} (dev : Device V) command x :
  attempt dev command x =
    match ending_of (write x) with
    | Throws e => Raise e
    | Expires => Raise CancelledError
    | Completes =>
      match notify_future (deliver (fresh command) (stream x)) with
      | Some (Resolved res) =>
        match parse_response command res with
        | Ret body => parse dev (starting_address command) body
        | Raise e => Raise e
        end
      | Some (Failed err) => Raise err
      | Some Cancelled => Raise CancelledError
      | None => Raise (OtherException "TypeError")
      | Some Pending =>
        match otherwise x with
        | ResponseTimeout => Raise TimeoutError
        | CycleDeadline | TaskCancelled => Raise CancelledError
        end
      end
    end.
Proof.
  unfold attempt. rewrite request_unfold.
  destruct (ending_of (write x)); simpl; try done.
  destruct (notify_future _) as [[| | |]|]; simpl; try done.
  - by destruct (otherwise x).
  - destruct (parse_response command res); simpl; [|done].
    destruct (parse dev (starting_address command) a); simpl; [|done].
    by rewrite (right_id_L ∅ (∪)).
Qed.

(** ** The run, step by step *)

Lemma poll_cons {V} (dev : Device V) s i command rest parsed_data w :
  poll dev s i (command :: rest) parsed_data w =
    match request dev command (exchanges s i) parsed_data w with
    | (Ret parsed_data', w1) => poll dev s (S i) rest parsed_data' w1
    | (Raise e, w1) =>
      if logged e then poll dev s (S i) rest parsed_data w1 else (Raise e, w1)
    end.
Proof.
  simpl. unfold bind, try_except.
  destruct (request _ _ _ _ _) as [[pd|e] w1]; [done|].
  by destruct (logged e).
Qed.

Lemma try_finally_closes {A} (m : M A) (s : script) (w : world) :
  try_finally m
    (called Disconnect ;;
     update_self (fun self => deliver self (disconnect_arriving s)) ;;
     match disconnect s with
     | None => ret tt
     | Some e => raise e
     end) w =
  let (o, w1) := m w in closes s o w1.
Proof.
  unfold try_finally, closes, bind, called, update_self, ret, raise.
  destruct (m w) as [o w1]. simpl. by destruct (disconnect s).
Qed.

(** A run that gets past [connect] and [start_notify]: the loop, the outer
    clauses, the [finally] clause. *)
Lemma run_established {V} (dev : Device V) (s : script) (w : world) :
  ble_device s <> None ->
  connect s = Completes ->
  ending_of (start_notify s) = Completes ->
  _async_update_data (Some dev) s w =
    let (o, w1) :=
      poll dev s 0 (polling_commands dev) ∅
        {| self_of := deliver (self_of w) (arriving (start_notify s));
           timed_out := false;
           calls := calls w ++ [Connect; StartNotify] |} in
    closes s (outer_outcome o (timed_out w1)) w1.
Proof.
  intros Hdev Hconn Hsub. unfold _async_update_data.
  destruct (ble_device s) as [[]|]; [|done].
  rewrite try_finally_closes.
  unfold try_except, timeout_block.
  unfold bind at 1 2 3.
  rewrite !await_call_completes by done. simpl.
  rewrite <- app_assoc. simpl.
  destruct (poll _ _ _ _ _ _) as [[pd|e] w1]; simpl; [done|].
  destruct e; simpl; try done.
  by destruct (timed_out w1).
Qed.

(** A run in which [connect] or [start_notify] does not complete. *)
Ltac finish_not_established :=
  simpl; repeat split; intros;
  repeat match goal with
         | H : _ \/ _ |- _ => destruct H
         | H : _ /\ _ |- _ => destruct H
         | H : exists _, _ |- _ => destruct H
         end;
  simplify_eq; simpl in *;
  try done; try (left; done); try (right; done); try congruence;
  try (right; eexists; split; [reflexivity|done]).

Lemma run_not_established {V} (dev : Device V) (s : script) (w : world) :
  ble_device s <> None ->
  connect s <> Completes \/ ending_of (start_notify s) <> Completes ->
  exists o w1,
    _async_update_data (Some dev) s w = closes s o w1 /\
    (o = Ret None \/ exists e, o = Raise e /\ gives_up e = false) /\
    (o = Ret None <->
       fails_quietly (connect s) \/
       (connect s = Completes /\ fails_quietly (ending_of (start_notify s)))) /\
    calls w1 = calls w ++ match connect s with
                          | Completes => [Connect; StartNotify]
                          | _ => [Connect]
                          end.
Proof.
  intros Hdev Hfail. unfold _async_update_data.
  destruct (ble_device s) as [[]|]; [|done].
  rewrite try_finally_closes.
  unfold try_except, timeout_block.
  unfold bind at 1 2 3.
  unfold await_call at 1. unfold bind at 1 2, called, update_self, ends. simpl.
  destruct (connect s) as [|e|] eqn:Hconn; simpl.
  - destruct Hfail as [|Hsub]; [done|].
    unfold await_call, bind, called, update_self, ends. simpl.
    destruct (ending_of (start_notify s)) as [|e|] eqn:Hs; [done| |]; simpl.
    + unfold raise. simpl.
      destruct (gives_up e) eqn:He; destruct e; try done; simpl;
        (eexists _, _; split; [reflexivity|]);
        rewrite <- app_assoc; finish_not_established.
    + unfold deadline. simpl. eexists _, _. split; [reflexivity|].
      rewrite <- app_assoc. finish_not_established.
  - unfold raise.
    destruct (gives_up e) eqn:He; destruct e; try done; simpl;
      (eexists _, _; split; [reflexivity|]); finish_not_established.
  - unfold deadline. simpl. eexists _, _. split; [reflexivity|]. finish_not_established.
Qed.

(** The loop writes the commands in order, each at most once, and stops
    writing for good when it stops. *)
Lemma poll_calls_prefix {V} (dev : Device V) s commands :
  forall i parsed_data w,
  exists n, calls (snd (poll dev s i commands parsed_data w))
            = calls w ++ take n (writes commands).
Proof.
  induction commands as [|command rest IH]; intros i parsed_data w.
  - exists 0%nat. simpl. by rewrite app_nil_r.
  - rewrite poll_cons.
    destruct (request_from_start dev command (exchanges s i) parsed_data w)
      as [_ Hcalls].
    destruct (request _ _ _ _ _) as [[pd|e] w1]; simpl in Hcalls.
    + destruct (IH (S i) pd w1) as [n Hn].
      exists (S n). rewrite Hn, Hcalls, <- app_assoc. done.
    + destruct (logged e).
      * destruct (IH (S i) parsed_data w1) as [n Hn].
        exists (S n). rewrite Hn, Hcalls, <- app_assoc. done.
      * exists 1%nat. simpl. by rewrite take_0.
Qed.

(** When the loop ends with a dict, no attempt ended in an exception the
    loop does not log, every command was written, and the dict is the
    harvest. *)
Lemma poll_ret {V} (dev : Device V) s commands :
  forall i parsed_data w parsed_data' w',
  poll dev s i commands parsed_data w = (Ret parsed_data', w') ->
  parsed_data' = harvest dev s i commands parsed_data /\
  (forall k command, commands !! k = Some command ->
     raises_only logged (attempt dev command (exchanges s (i + k)))) /\
  calls w' = calls w ++ writes commands.
Proof.
  induction commands as [|command rest IH]; intros i parsed_data w pd' w' Hpoll.
  - simpl in Hpoll. injection Hpoll as <- <-.
    split; [done|]. split; [done|]. simpl. by rewrite app_nil_r.
  - rewrite poll_cons in Hpoll.
    destruct (request_from_start dev command (exchanges s i) parsed_data w)
      as [Hout Hcalls].
    destruct (request _ _ _ _ _) as [o w1]; simpl in Hout, Hcalls. subst o.
    simpl.
    destruct (attempt dev command (exchanges s i)) as [parsed|e] eqn:Ha.
    + apply IH in Hpoll as (-> & Hall & ->).
      split; [done|]. split; [|by rewrite Hcalls, <- app_assoc].
      intros [|k] c Hk; simpl in Hk.
      * injection Hk as <-. by rewrite Nat.add_0_r, Ha.
      * replace (i + S k)%nat with (S i + k)%nat by lia. by apply Hall.
    + destruct (logged e) eqn:He; [|done].
      apply IH in Hpoll as (-> & Hall & ->).
      split; [done|]. split; [|by rewrite Hcalls, <- app_assoc].
      intros [|k] c Hk; simpl in Hk.
      * injection Hk as <-. by rewrite Nat.add_0_r, Ha.
      * replace (i + S k)%nat with (S i + k)%nat by lia. by apply Hall.
Qed.

Lemma request_deadline {V} (dev : Device V) command x parsed_data w :
  deadline_hits command x ->
  fst (request dev command x parsed_data w) = Raise CancelledError /\
  timed_out (snd (request dev command x parsed_data w)) = true.
Proof.
  intros Hd. rewrite request_unfold.
  destruct Hd as [->|(-> & -> & ->)]; done.
Qed.

(** The loop stops at the first attempt that ends in an exception it does
    not log: the commands up to that one were written, the others were not. *)
Lemma poll_stops {V} (dev : Device V) s commands :
  forall i parsed_data w k command e,
  commands !! k = Some command ->
  (forall j cj, (j < k)%nat -> commands !! j = Some cj ->
     raises_only logged (attempt dev cj (exchanges s (i + j)))) ->
  attempt dev command (exchanges s (i + k)) = Raise e ->
  logged e = false ->
  exists w',
    poll dev s i commands parsed_data w = (Raise e, w') /\
    calls w' = calls w ++ take (S k) (writes commands) /\
    (deadline_hits command (exchanges s (i + k)) -> timed_out w' = true).
Proof.
  induction commands as [|c0 rest IH]; intros i parsed_data w k command e Hk Hbefore Ha He;
    [done|].
  rewrite poll_cons.
  destruct (request_from_start dev c0 (exchanges s i) parsed_data w) as [Hout Hcalls].
  destruct k as [|k]; simpl in Hk.
  - injection Hk as ->. rewrite Nat.add_0_r in *.
    pose proof (request_deadline dev command (exchanges s i) parsed_data w) as Hd.
    destruct (request _ _ _ _ _) as [o w1]; simpl in *. subst o.
    rewrite Ha, He. exists w1. split; [done|]. split; [by rewrite take_0|].
    intros Hhit. by apply Hd.
  - assert (raises_only logged (attempt dev c0 (exchanges s i))) as H0.
    { rewrite <- (Nat.add_0_r i). apply Hbefore; [lia|done]. }
    assert (forall pd w1, exists w',
              poll dev s (S i) rest pd w1 = (Raise e, w') /\
              calls w' = calls w1 ++ take (S k) (writes rest) /\
              (deadline_hits command (exchanges s (i + S k)) -> timed_out w' = true))
      as Hrest.
    { intros pd w1.
      replace (i + S k)%nat with (S i + k)%nat in * by lia.
      apply IH; try done.
      intros j cj Hj Hcj. replace (S i + j)%nat with (i + S j)%nat by lia.
      apply Hbefore; [lia|done]. }
    destruct (request _ _ _ _ _) as [o w1]; simpl in Hout, Hcalls. subst o.
    destruct (attempt dev c0 (exchanges s i)) as [parsed|e0]; simpl in H0.
    + destruct (Hrest (parsed ∪ parsed_data) w1) as (w' & -> & Hc & Ht).
      exists w'. split; [done|]. split; [|done].
      rewrite Hc, Hcalls, <- app_assoc. done.
    + rewrite H0.
      destruct (Hrest parsed_data w1) as (w' & -> & Hc & Ht).
      exists w'. split; [done|]. split; [|done].
      rewrite Hc, Hcalls, <- app_assoc. done.
Qed.

Lemma closes_calls {A} (s : script) (o : outcome A) (w : world) :
  calls (snd (closes s o w)) = calls w ++ [Disconnect].
Proof. unfold closes. by destruct (disconnect s). Qed.

Lemma closes_returns {A} (s : script) (o : outcome A) (w : world) (a : A) :
  fst (closes s o w) = Ret a -> disconnect s = None /\ o = Ret a.
Proof. unfold closes. by destruct (disconnect s). Qed.

Lemma closes_quietly {A} (s : script) (o : outcome A) (w : world) :
  disconnect s = None -> fst (closes s o w) = o.
Proof. unfold closes. by intros ->. Qed.

(** A run that returns a dict got through the whole polling list. *)
Lemma run_returns_dict {V} (dev : Device V) (s : script) (w : world)
    (snapshot : gmap string V) :
  fst (_async_update_data (Some dev) s w) = Ret (Some snapshot) ->
  snapshot = harvest dev s 0 (polling_commands dev) ∅ /\
  (forall i command, polling_commands dev !! i = Some command ->
     raises_only logged (attempt dev command (exchanges s i))) /\
  calls (snd (_async_update_data (Some dev) s w)) =
    calls w ++ [Connect; StartNotify] ++ writes (polling_commands dev) ++ [Disconnect].
Proof.
  intros Hret.
  assert (ble_device s <> None) as Hdev.
  { intros Hnone. unfold _async_update_data in Hret. by rewrite Hnone in Hret. }
  destruct (connect s) as [|e|] eqn:Hconn;
    [destruct (ending_of (start_notify s)) as [|e|] eqn:Hsub|..].
  - rewrite (run_established dev s w Hdev Hconn Hsub) in Hret |- *.
    destruct (poll _ _ _ _ _ _) as [o w1] eqn:Hpoll.
    apply closes_returns in Hret as [_ Hout].
    destruct o as [pd|e]; simpl in Hout.
    + injection Hout as ->.
      apply poll_ret in Hpoll as (-> & Hall & Hcalls).
      split; [done|]. split; [done|].
      rewrite closes_calls, Hcalls. simpl. by rewrite <- !app_assoc.
    + destruct e; simpl in Hout; try done. by destruct (timed_out w1).
  - destruct (run_not_established dev s w Hdev) as (o & w1 & Hrun & [->|(e' & -> & _)] & _).
    { right. by rewrite Hsub. }
    all: rewrite Hrun in Hret; by apply closes_returns in Hret as [_ ?].
  - destruct (run_not_established dev s w Hdev) as (o & w1 & Hrun & [->|(e' & -> & _)] & _).
    { right. by rewrite Hsub. }
    all: rewrite Hrun in Hret; by apply closes_returns in Hret as [_ ?].
  - destruct (run_not_established dev s w Hdev) as (o & w1 & Hrun & [->|(e' & -> & _)] & _).
    { left. by rewrite Hconn. }
    all: rewrite Hrun in Hret; by apply closes_returns in Hret as [_ ?].
  - destruct (run_not_established dev s w Hdev) as (o & w1 & Hrun & [->|(e' & -> & _)] & _).
    { left. by rewrite Hconn. }
    all: rewrite Hrun in Hret; by apply closes_returns in Hret as [_ ?].
Qed.

(** * More on the polling coroutine *)

(** The calls on the client follow one pattern in every run that creates a
    client: [connect], then [start_notify], then the writes of the polling
    commands in list order, each at most once, cut off at some point, and
    [disconnect] last.  No command is written twice or out of order, none
    before the subscription, and nothing follows [disconnect]. *)
Theorem calls_follow_the_polling_list {V} (dev : Device V) (s : script) (w : world) :
  ble_device s <> None ->
  exists n, (1 <= n)%nat /\
    calls (snd (_async_update_data (Some dev) s w)) =
      calls w
        ++ take n (Connect :: StartNotify :: writes (polling_commands dev))
        ++ [Disconnect].
Proof.
  intros Hdev.
  destruct (connect s) as [|e|] eqn:Hconn;
    [destruct (ending_of (start_notify s)) as [|e|] eqn:Hsub|..].
  - rewrite (run_established dev s w Hdev Hconn Hsub).
    match goal with |- context [poll dev s 0 ?cs ∅ ?w0] =>
      destruct (poll_calls_prefix dev s cs 0 ∅ w0) as [n Hn];
      destruct (poll dev s 0 cs ∅ w0) as [o w1]
    end.
    exists (S (S n)). split; [lia|].
    rewrite closes_calls. simpl in Hn. rewrite Hn. simpl.
    by rewrite <- !app_assoc.
  - destruct (run_not_established dev s w Hdev) as (o & w1 & -> & _ & _ & Hcalls).
    { right. by rewrite Hsub. }
    exists 2%nat. split; [lia|].
    rewrite closes_calls, Hcalls, Hconn. simpl. by rewrite ?take_0, <- ?app_assoc.
  - destruct (run_not_established dev s w Hdev) as (o & w1 & -> & _ & _ & Hcalls).
    { right. by rewrite Hsub. }
    exists 2%nat. split; [lia|].
    rewrite closes_calls, Hcalls, Hconn. simpl. by rewrite ?take_0, <- ?app_assoc.
  - destruct (run_not_established dev s w Hdev) as (o & w1 & -> & _ & _ & Hcalls).
    { left. by rewrite Hconn. }
    exists 1%nat. split; [lia|].
    rewrite closes_calls, Hcalls, Hconn. simpl. by rewrite ?take_0, <- ?app_assoc.
  - destruct (run_not_established dev s w Hdev) as (o & w1 & -> & _ & _ & Hcalls).
    { left. by rewrite Hconn. }
    exists 1%nat. split; [lia|].
    rewrite closes_calls, Hcalls, Hconn. simpl. by rewrite ?take_0, <- ?app_assoc.
Qed.

Lemma calls_follow_the_polling_list_witness :
  exists n, (1 <= n)%nat /\
    calls (snd (_async_update_data (Some sample_device)
                  (run_of answered (silent CycleDeadline) None) start)) =
      calls start
        ++ take n (Connect :: StartNotify :: writes (polling_commands sample_device))
        ++ [Disconnect].
Proof.
  apply (calls_follow_the_polling_list sample_device
           (run_of answered (silent CycleDeadline) None) start).
  discriminate.
Defined.

(** A dict is returned only after the whole list.  Whenever the run returns
    a dict, every polling command was written, in order, no attempt ended in
    an exception the loop does not log, and the dict is the harvest of all the
    attempts: the run never returns the fields of a loop it left early. *)
Theorem returned_dict_covers_every_command {V} (dev : Device V) (s : script)
    (w : world) (snapshot : gmap string V) :
  fst (_async_update_data (Some dev) s w) = Ret (Some snapshot) ->
  snapshot = harvest dev s 0 (polling_commands dev) ∅ /\
  (forall i command, polling_commands dev !! i = Some command ->
     raises_only logged (attempt dev command (exchanges s i))) /\
  calls (snd (_async_update_data (Some dev) s w)) =
    calls w ++ [Connect; StartNotify] ++ writes (polling_commands dev) ++ [Disconnect].
Proof. apply run_returns_dict. Qed.

Lemma returned_dict_covers_every_command_witness :
  let s := run_of answered (silent ResponseTimeout) None in
  {[ "10" := [x00; x2a] ]} = harvest sample_device s 0 (polling_commands sample_device) ∅ /\
  (forall i command, polling_commands sample_device !! i = Some command ->
     raises_only logged (attempt sample_device command (exchanges s i))) /\
  calls (snd (_async_update_data (Some sample_device) s start)) =
    calls start ++ [Connect; StartNotify]
      ++ writes (polling_commands sample_device) ++ [Disconnect].
Proof.
  apply (returned_dict_covers_every_command sample_device
           (run_of answered (silent ResponseTimeout) None) start
           {[ "10" := [x00; x2a] ]}).
  reflexivity.
Defined.

Lemma harvest_lookup_untouched {V} (dev : Device V) s commands (key : string) :
  forall i (parsed_data : gmap string V),
  (forall j cj pj, commands !! j = Some cj ->
     attempt dev cj (exchanges s (i + j)) = Ret pj -> pj !! key = None) ->
  harvest dev s i commands parsed_data !! key = parsed_data !! key.
Proof.
  induction commands as [|c0 rest IH]; intros i parsed_data Hnone; [done|].
  simpl. rewrite IH.
  - destruct (attempt dev c0 (exchanges s i)) as [parsed|e] eqn:Ha; [|done].
    apply lookup_union_r. apply (Hnone 0%nat c0); [done|by rewrite Nat.add_0_r].
  - intros j cj pj Hj Ha. apply (Hnone (S j) cj); [done|].
    by replace (i + S j)%nat with (S i + j)%nat by lia.
Qed.

Lemma harvest_lookup_last {V} (dev : Device V) s commands (key : string) (v : V) :
  forall i (parsed_data : gmap string V) k command parsed,
  commands !! k = Some command ->
  attempt dev command (exchanges s (i + k)) = Ret parsed ->
  parsed !! key = Some v ->
  (forall j cj pj, (k < j)%nat -> commands !! j = Some cj ->
     attempt dev cj (exchanges s (i + j)) = Ret pj -> pj !! key = None) ->
  harvest dev s i commands parsed_data !! key = Some v.
Proof.
  induction commands as [|c0 rest IH]; intros i parsed_data k command parsed Hk Ha Hv Hlater;
    [done|].
  destruct k as [|k]; simpl in Hk; simpl.
  - injection Hk as ->. rewrite Nat.add_0_r in Ha. rewrite Ha.
    rewrite harvest_lookup_untouched.
    + by apply lookup_union_Some_l.
    + intros j cj pj Hj Haj. apply (Hlater (S j) cj); [lia|done|].
      by replace (i + S j)%nat with (S i + j)%nat by lia.
  - apply (IH (S i) _ k command parsed); try done.
    + by replace (S i + k)%nat with (i + S k)%nat by lia.
    + intros j cj pj Hj Hcj Haj. apply (Hlater (S j) cj); [lia|done|].
      by replace (i + S j)%nat with (S i + j)%nat by lia.
Qed.

(** The last command wins.  In a returned dict, a field holds the value
    parsed by the last command of the list, among those whose attempt
    succeeded, that has the field: [update] lets a later command overwrite an
    earlier one. *)
Theorem last_command_wins {V} (dev : Device V) (s : script) (w : world)
    (snapshot parsed : gmap string V) (k : nat) (command : Command)
    (key : string) (v : V) :
  fst (_async_update_data (Some dev) s w) = Ret (Some snapshot) ->
  polling_commands dev !! k = Some command ->
  attempt dev command (exchanges s k) = Ret parsed ->
  parsed !! key = Some v ->
  (forall j cj pj, (k < j)%nat -> polling_commands dev !! j = Some cj ->
     attempt dev cj (exchanges s j) = Ret pj -> pj !! key = None) ->
  snapshot !! key = Some v.
Proof.
  intros Hret Hk Ha Hv Hlater.
  apply run_returns_dict in Hret as (-> & _ & _).
  by apply (harvest_lookup_last dev s _ key v 0 ∅ k command parsed).
Qed.

Lemma last_command_wins_witness :
  attempt same_key_device command_A answered = Ret {[ "value" := [x00; x2a] ]} /\
  fst (_async_update_data (Some same_key_device)
         (run_of answered answered_otherwise None) start)
    = Ret (Some {[ "value" := [x00; x2b] ]}) /\
  ({[ "value" := [x00; x2b] ]} : gmap string bytes) !! "value" = Some [x00; x2b].
Proof.
  split; [reflexivity|]. split; [reflexivity|].
  apply (last_command_wins same_key_device (run_of answered answered_otherwise None) start
           {[ "value" := [x00; x2b] ]} {[ "value" := [x00; x2b] ]} 1 command_B
           "value" [x00; x2b]).
  - reflexivity.
  - reflexivity.
  - reflexivity.
  - reflexivity.
  - intros [|[|j]] cj pj Hj Hc; [lia|lia|discriminate].
Defined.

(** An exception the loop does not log ends the run.  When [connect] and
    [start_notify] complete, the attempts before command [k] succeed or are
    logged, and the attempt of command [k] raises an exception of a class
    neither the inner nor the outer clauses name (a parser's [KeyError], say),
    the run raises that exception to its caller after [disconnect]: the
    commands after [k] are not written and the fields parsed so far are
    lost. *)
Theorem unlogged_exception_ends_the_run {V} (dev : Device V) (s : script) (w : world)
    (k : nat) (command : Command) (e : exn) :
  ble_device s <> None ->
  connect s = Completes ->
  ending_of (start_notify s) = Completes ->
  disconnect s = None ->
  polling_commands dev !! k = Some command ->
  (forall j cj, (j < k)%nat -> polling_commands dev !! j = Some cj ->
     raises_only logged (attempt dev cj (exchanges s j))) ->
  attempt dev command (exchanges s k) = Raise e ->
  logged e = false ->
  e <> CancelledError ->
  fst (_async_update_data (Some dev) s w) = Raise e /\
  calls (snd (_async_update_data (Some dev) s w)) =
    calls w ++ [Connect; StartNotify]
      ++ take (S k) (writes (polling_commands dev)) ++ [Disconnect].
Proof.
  intros Hdev Hconn Hsub Hdisc Hk Hbefore Ha He Hcancel.
  rewrite (run_established dev s w Hdev Hconn Hsub).
  match goal with |- context [poll dev s 0 ?cs ∅ ?w0] =>
    destruct (poll_stops dev s cs 0 ∅ w0 k command e Hk Hbefore Ha He)
      as (w' & -> & Hcalls & _)
  end.
  rewrite closes_quietly, closes_calls by done. split.
  - destruct e; done.
  - rewrite Hcalls. simpl. by rewrite <- !app_assoc.
Qed.

Lemma unlogged_exception_ends_the_run_witness :
  let s := run_of answered answered None in
  fst (_async_update_data (Some failing_parser_device) s start)
    = Raise (OtherException "KeyError") /\
  calls (snd (_async_update_data (Some failing_parser_device) s start)) =
    calls start ++ [Connect; StartNotify]
      ++ take 1 (writes (polling_commands failing_parser_device)) ++ [Disconnect].
Proof.
  apply (unlogged_exception_ends_the_run failing_parser_device
           (run_of answered answered None) start 0 command_A
           (OtherException "KeyError")); try reflexivity; try discriminate.
  intros j cj Hj. lia.
Defined.

(** The deadline discards what was parsed.  When [connect] and
    [start_notify] complete, the attempts before command [k] succeed or are
    logged, and the 15 s deadline expires during the exchange of command [k]
    (during its write, or during the wait for an answer that has not settled
    the future), the run returns [None], whatever the earlier commands
    yielded, and the commands after [k] are not written. *)
Theorem deadline_discards_parsed_fields {V} (dev : Device V) (s : script) (w : world)
    (k : nat) (command : Command) :
  ble_device s <> None ->
  connect s = Completes ->
  ending_of (start_notify s) = Completes ->
  disconnect s = None ->
  polling_commands dev !! k = Some command ->
  (forall j cj, (j < k)%nat -> polling_commands dev !! j = Some cj ->
     raises_only logged (attempt dev cj (exchanges s j))) ->
  deadline_hits command (exchanges s k) ->
  fst (_async_update_data (Some dev) s w) = Ret None /\
  calls (snd (_async_update_data (Some dev) s w)) =
    calls w ++ [Connect; StartNotify]
      ++ take (S k) (writes (polling_commands dev)) ++ [Disconnect].
Proof.
  intros Hdev Hconn Hsub Hdisc Hk Hbefore Hhit.
  assert (attempt dev command (exchanges s k) = Raise CancelledError) as Ha.
  { rewrite attempt_unfold. by destruct Hhit as [->|(-> & -> & ->)]. }
  rewrite (run_established dev s w Hdev Hconn Hsub).
  match goal with |- context [poll dev s 0 ?cs ∅ ?w0] =>
    destruct (poll_stops dev s cs 0 ∅ w0 k command CancelledError Hk Hbefore Ha eq_refl)
      as (w' & -> & Hcalls & Hlate)
  end.
  rewrite closes_quietly, closes_calls by done. split.
  - simpl. by rewrite (Hlate Hhit).
  - rewrite Hcalls. simpl. by rewrite <- !app_assoc.
Qed.

Lemma deadline_discards_parsed_fields_witness :
  let s := run_of answered (silent CycleDeadline) None in
  attempt sample_device command_A (exchanges s 0) = Ret {[ "10" := [x00; x2a] ]} /\
  fst (_async_update_data (Some sample_device) s start) = Ret None /\
  calls (snd (_async_update_data (Some sample_device) s start)) =
    calls start ++ [Connect; StartNotify]
      ++ take 2 (writes (polling_commands sample_device)) ++ [Disconnect].
Proof.
  split; [reflexivity|].
  apply (deadline_discards_parsed_fields sample_device
           (run_of answered (silent CycleDeadline) None) start 1 command_B);
    try reflexivity; try discriminate.
  - intros [|j] cj Hj Hc; [|lia]. injection Hc as <-. exact I.
  - right. repeat split.
Defined.

(** A failed [connect].  When [connect] raises [TimeoutError] or
    [BleakError], or the deadline expires during it, and [disconnect] raises
    nothing, the run returns [None]; [start_notify] is not called, no command
    is written, and [disconnect] is still called. *)
Theorem failed_connect_returns_none {V} (dev : Device V) (s : script) (w : world) :
  ble_device s <> None ->
  fails_quietly (connect s) ->
  disconnect s = None ->
  fst (_async_update_data (Some dev) s w) = Ret None /\
  calls (snd (_async_update_data (Some dev) s w)) = calls w ++ [Connect; Disconnect].
Proof.
  intros Hdev Hfail Hdisc.
  destruct (run_not_established dev s w Hdev) as (o & w1 & -> & _ & Hnone & Hcalls).
  { left. intros Hc. by rewrite Hc in Hfail. }
  rewrite closes_quietly, closes_calls by done. split.
  - apply Hnone. by left.
  - rewrite Hcalls, <- app_assoc. by destruct (connect s).
Qed.

Lemma failed_connect_returns_none_witness :
  let s := {| ble_device := Some tt;
              connect := Throws (BleakError "device not reachable");
              start_notify := quiet_call;
              exchanges := fun _ => answered;
              disconnect_arriving := [];
              disconnect := None |} in
  fst (_async_update_data (Some sample_device) s start) = Ret None /\
  calls (snd (_async_update_data (Some sample_device) s start))
    = calls start ++ [Connect; Disconnect].
Proof.
  apply (failed_connect_returns_none sample_device
           {| ble_device := Some tt;
              connect := Throws (BleakError "device not reachable");
              start_notify := quiet_call;
              exchanges := fun _ => answered;
              disconnect_arriving := [];
              disconnect := None |} start);
    [discriminate|reflexivity|reflexivity].
Defined.

(** A failed subscription.  When [connect] completes and [start_notify]
    raises [TimeoutError] or [BleakError], or the deadline expires during it,
    and [disconnect] raises nothing, the run returns [None]; no command is
    written, and [disconnect] is called on the connection that was opened. *)
Theorem failed_subscription_returns_none {V} (dev : Device V) (s : script) (w : world) :
  ble_device s <> None ->
  connect s = Completes ->
  fails_quietly (ending_of (start_notify s)) ->
  disconnect s = None ->
  fst (_async_update_data (Some dev) s w) = Ret None /\
  calls (snd (_async_update_data (Some dev) s w))
    = calls w ++ [Connect; StartNotify; Disconnect].
Proof.
  intros Hdev Hconn Hfail Hdisc.
  destruct (run_not_established dev s w Hdev) as (o & w1 & -> & _ & Hnone & Hcalls).
  { right. intros Hc. by rewrite Hc in Hfail. }
  rewrite closes_quietly, closes_calls by done. split.
  - apply Hnone. by right.
  - rewrite Hcalls, <- app_assoc. by rewrite Hconn.
Qed.

Lemma failed_subscription_returns_none_witness :
  let s := {| ble_device := Some tt;
              connect := Completes;
              start_notify := {| arriving := []; ending_of := Expires |};
              exchanges := fun _ => answered;
              disconnect_arriving := [];
              disconnect := None |} in
  fst (_async_update_data (Some sample_device) s start) = Ret None /\
  calls (snd (_async_update_data (Some sample_device) s start))
    = calls start ++ [Connect; StartNotify; Disconnect].
Proof.
  apply (failed_subscription_returns_none sample_device
           {| ble_device := Some tt;
              connect := Completes;
              start_notify := {| arriving := []; ending_of := Expires |};
              exchanges := fun _ => answered;
              disconnect_arriving := [];
              disconnect := None |} start);
    [discriminate|reflexivity|exact I|reflexivity].
Defined.

(** * More on one command *)

(** Every command starts from a clean slate.  How the inner [try] body ends
    for a command, and the future, command and accumulator it leaves, do not
    depend on the world it starts from: what an earlier command left behind (a
    pending or settled future, bytes in the accumulator) has no effect. *)
Theorem command_starts_from_clean_slate {V} (dev : Device V) (command : Command)
    (x : exchange) (parsed_data : gmap string V) (w w' : world) :
  fst (request dev command x parsed_data w) = fst (request dev command x parsed_data w') /\
  self_of (snd (request dev command x parsed_data w))
    = self_of (snd (request dev command x parsed_data w')).
Proof.
  rewrite !request_unfold.
  destruct (ending_of (write x)); simpl; try done.
  destruct (notify_future _) as [[| | |]|]; simpl; try done.
  by destruct (otherwise x).
Qed.

Lemma handler_at_notification (self : coordinator) (data : bytes) :
  notify_future self = Some Pending ->
  data = AT_NAME \/ data = AT_ADV ->
  notify_future (snd (_notification_handler self data))
    = Some (Failed (BadConnectionError "Got AT+ notification")) /\
  notify_response (snd (_notification_handler self data)) = notify_response self.
Proof.
  intros Hf Hat. unfold _notification_handler. rewrite Hf. simpl.
  assert (is_at_notification data = true) as ->; [|done].
  unfold is_at_notification.
  destruct Hat as [-> | ->]; apply orb_true_iff; [left|right];
    by apply bool_decide_eq_true_2.
Qed.

(** An AT notification fails the command.  When the write completes and one
    of the notifications of the exchange is [AT+NAME?\r] or [AT+ADV?\r], and
    the notifications before it left the future pending, the attempt ends in
    [BadConnectionError], whatever arrives afterwards, be it the rest of a
    valid answer. *)
Theorem at_notification_fails_the_command {V} (dev : Device V) (command : Command)
    (x : exchange) (before after : list bytes) (data : bytes) :
  ending_of (write x) = Completes ->
  stream x = before ++ data :: after ->
  data = AT_NAME \/ data = AT_ADV ->
  notify_future (deliver (fresh command) before) = Some Pending ->
  attempt dev command x = Raise (BadConnectionError "Got AT+ notification").
Proof.
  intros Hwrite Hstream Hat Hpending.
  rewrite attempt_unfold, Hwrite, Hstream, deliver_app. simpl.
  destruct (handler_at_notification _ data Hpending Hat) as [Hfut _].
  rewrite deliver_settled; [by rewrite Hfut|].
  unfold settled. by rewrite Hfut.
Qed.

Lemma at_notification_fails_the_command_witness :
  attempt sample_device command_A
    {| write := quiet_call;
       answer := [take 4 answer_7; AT_NAME; drop 4 answer_7];
       otherwise := ResponseTimeout |}
    = Raise (BadConnectionError "Got AT+ notification").
Proof.
  apply (at_notification_fails_the_command sample_device command_A
           {| write := quiet_call;
              answer := [take 4 answer_7; AT_NAME; drop 4 answer_7];
              otherwise := ResponseTimeout |}
           [take 4 answer_7] [drop 4 answer_7] AT_NAME).
  - reflexivity.
  - reflexivity.
  - left. reflexivity.
  - reflexivity.
Defined.

(** From notifications to fields.  When the write completes and the
    notifications of the exchange, however they are cut into chunks (at least
    one), carry no more bytes than the command declares, none of them is an AT
    sequence, and no prefix shorter than the declared length passes the
    exception test, the attempt is fixed by the bytes: with the declared
    length and a valid checksum it yields [parse(starting_address,
    parse_response(bytes))]; with the declared length and an invalid checksum
    it raises [ParseError]; with fewer bytes it ends as the wait ends,
    [TimeoutError] for the response timeout and [CancelledError] for the
    deadline or a cancellation of the task. *)
Theorem attempt_of_whole_answer {V} (dev : Device V) (command : Command) (x : exchange) :
  ending_of (write x) = Completes ->
  stream x <> [] ->
  Z.of_nat (length (concat (stream x))) <= response_size command ->
  (forall data, data ∈ stream x -> is_at_notification data = false) ->
  (forall p, p `prefix_of` concat (stream x) ->
             Z.of_nat (length p) < response_size command ->
             is_exception_response command p = false) ->
  attempt dev command x =
    let resp := concat (stream x) in
    if Z.of_nat (length resp) =? response_size command then
      if is_valid_response command resp then
        match parse_response command resp with
        | Ret body => parse dev (starting_address command) body
        | Raise e => Raise e
        end
      else Raise (ParseError "Failed checksum")
    else
      match otherwise x with
      | ResponseTimeout => Raise TimeoutError
      | CycleDeadline | TaskCancelled => Raise CancelledError
      end.
Proof.
  intros Hwrite Hne Hlen Hat Hexc.
  rewrite attempt_unfold, Hwrite.
  unfold fresh.
  rewrite (deliver_within_length command (stream x) []); auto.
  simpl. unfold length_check.
  destruct (Z.of_nat (length (concat (stream x))) =? response_size command); [|done].
  by destruct (is_valid_response command (concat (stream x))).
Qed.

Lemma attempt_of_whole_answer_witness :
  attempt sample_device command_A answered = Ret {[ "10" := [x00; x2a] ]}.
Proof.
  apply (attempt_of_whole_answer sample_device command_A answered).
  - reflexivity.
  - discriminate.
  - vm_compute. discriminate.
  - intros data [->|[->|[]%elem_of_nil]%elem_of_cons]%elem_of_cons; reflexivity.
  - intros p [k Hk] _.
    destruct p as [|a [|b p]]; [reflexivity..|].
    simpl in Hk. injection Hk as _ Hb _. subst b. reflexivity.
Defined.

(** An exception answer fails the command.  When the write completes and the
    first notification is not an AT sequence, differs in length from the
    declared answer, passes the command's exception test and has a byte at
    index 2, the attempt ends in a [ModbusError] whose message names the
    command and that byte, whatever arrives afterwards. *)
Theorem exception_answer_fails_the_command {V} (dev : Device V) (command : Command)
    (x : exchange) (frame : bytes) (later : list bytes) (code : byte) :
  ending_of (write x) = Completes ->
  stream x = frame :: later ->
  is_at_notification frame = false ->
  Z.of_nat (length frame) <> response_size command ->
  is_exception_response command frame = true ->
  frame !! 2%nat = Some code ->
  attempt dev command x =
    Raise (ModbusError
             ("MODBUS Exception " +:+ cmd_str command +:+ ": " +:+ pretty (Byte.to_N code))).
Proof.
  intros Hwrite Hstream Hat Hlen Hexc Hcode.
  rewrite attempt_unfold, Hwrite, Hstream. simpl.
  rewrite (handler_pending (fresh command) command frame eq_refl eq_refl Hat).
  simpl. rewrite (proj2 (Z.eqb_neq _ _) Hlen), Hexc, Hcode. simpl.
  rewrite deliver_settled; done.
Qed.

Lemma exception_answer_fails_the_command_witness :
  attempt sample_device command_B
    {| write := quiet_call;
       answer := [[x01; x83; x02; xc0; xf1]];
       otherwise := ResponseTimeout |}
    = Raise (ModbusError "MODBUS Exception ReadHoldingRegisters(70, 1): 2").
Proof.
  apply (exception_answer_fails_the_command sample_device command_B
           {| write := quiet_call;
              answer := [[x01; x83; x02; xc0; xf1]];
              otherwise := ResponseTimeout |}
           [x01; x83; x02; xc0; xf1] [] x02); try reflexivity.
  vm_compute. discriminate.
Defined.

(** * Recoverable failures *)

Lemma recoverable_logged (e : exn) : recoverable e = true -> logged e = true.
Proof. by destruct e. Qed.

(** A contribution fixes how the attempt ends. *)
Lemma contributes_attempt {V} (dev : Device V) command x (r : option (gmap string V)) :
  contributes dev command x r ->
  match r with
  | Some parsed => attempt dev command x = Ret parsed
  | None => exists e, attempt dev command x = Raise e /\ recoverable e = true
  end.
Proof.
  intros Hr. rewrite attempt_unfold.
  destruct Hr as [res body parsed Hw Hf Hpr Hp|e Hw He|Hw Hf Ho|e Hw Hf He
                  |res e Hw Hf Hpr He|res body e Hw Hf Hpr Hp He];
    rewrite Hw; rewrite ?Hf, ?Ho, ?Hpr, ?Hp; eauto.
Qed.

Lemma harvest_merged {V} (dev : Device V) s commands :
  forall (results : list (option (gmap string V))) i parsed_data,
  length results = length commands ->
  (forall k command r, commands !! k = Some command -> results !! k = Some r ->
     contributes dev command (exchanges s (i + k)) r) ->
  harvest dev s i commands parsed_data = merged results parsed_data /\
  (forall k command, commands !! k = Some command ->
     raises_only logged (attempt dev command (exchanges s (i + k)))).
Proof.
  induction commands as [|c0 rest IH]; intros results i parsed_data Hlen Hall.
  - destruct results; [done|discriminate].
  - destruct results as [|r results]; [discriminate|].
    injection Hlen as Hlen.
    pose proof (contributes_attempt dev c0 (exchanges s i) r) as H0.
    rewrite <- (Nat.add_0_r i) in H0 at 1.
    specialize (H0 (Hall 0%nat c0 r eq_refl eq_refl)).
    destruct (IH results (S i)
                (match r with Some parsed => parsed ∪ parsed_data | None => parsed_data end)
                Hlen) as [Hh Hrest].
    { intros k c rk Hk Hrk. replace (S i + k)%nat with (i + S k)%nat by lia.
      by apply Hall. }
    split.
    + simpl. destruct r as [parsed|].
      * by rewrite H0.
      * destruct H0 as (e & -> & _). done.
    + intros [|k] c Hk; simpl in Hk.
      * injection Hk as <-. rewrite Nat.add_0_r.
        destruct r as [parsed|]; [by rewrite H0|].
        destruct H0 as (e & -> & He). by apply recoverable_logged.
      * replace (i + S k)%nat with (S i + k)%nat by lia. by apply Hrest.
Qed.

Lemma merged_fields {V} (results : list (option (gmap string V))) (key : string) :
  forall parsed_data,
  is_Some (merged results parsed_data !! key) <->
  is_Some (parsed_data !! key) \/
  exists i parsed, results !! i = Some (Some parsed) /\ is_Some (parsed !! key).
Proof.
  induction results as [|r results IH]; intros parsed_data; simpl.
  - split; [by left|]. by intros [?|(i & p & Hi & _)].
  - destruct r as [parsed|]; rewrite IH; split.
    + intros [[Hin|Hin]%lookup_union_is_Some|(i & p & Hi & Hp)].
      * right. by exists 0%nat, parsed.
      * by left.
      * right. by exists (S i), p.
    + intros [Hin|([|i] & p & Hi & Hp)]; simpl in *.
      * left. apply lookup_union_is_Some. by right.
      * injection Hi as <-. left. apply lookup_union_is_Some. by left.
      * right. by exists i, p.
    + intros [Hin|(i & p & Hi & Hp)]; [by left|].
      right. by exists (S i), p.
    + intros [Hin|([|i] & p & Hi & Hp)]; simpl in *; [by left|done|].
      right. by exists i, p.
Qed.

(** C8, as the coroutine has it.  Take a run in which the device is found,
    [connect] and [start_notify] complete, [disconnect] raises nothing, and
    each command either succeeds (its write completes, the notifications
    resolve its future, the parsers return its fields) or ends in a
    recoverable error: a response timeout, a [ParseError] or a [ModbusError],
    with no deadline expiring and no other exception.  Then every command of
    the list is written, in order, after a failed one as after a successful
    one; the run returns a dict, not [None]; the dict is made by updating an
    empty dict with the parsed fields of each command that succeeded, in list
    order, while a failed command adds nothing; so its fields are exactly the
    fields of the commands that succeeded. *)
Theorem recoverable_failure_skips_one_command {V} (dev : Device V) (s : script)
    (w : world) (results : list (option (gmap string V))) :
  ble_device s <> None ->
  connect s = Completes ->
  ending_of (start_notify s) = Completes ->
  disconnect s = None ->
  length results = length (polling_commands dev) ->
  (forall i command r,
     polling_commands dev !! i = Some command -> results !! i = Some r ->
     contributes dev command (exchanges s i) r) ->
  fst (_async_update_data (Some dev) s w) = Ret (Some (merged results ∅)) /\
  calls (snd (_async_update_data (Some dev) s w)) =
    calls w ++ [Connect; StartNotify] ++ writes (polling_commands dev) ++ [Disconnect] /\
  (forall key,
     is_Some (merged results ∅ !! key) <->
     exists i parsed, results !! i = Some (Some parsed) /\ is_Some (parsed !! key)).
Proof.
  intros Hdev Hconn Hsub Hdisc Hlen Hall.
  destruct (harvest_merged dev s (polling_commands dev) results 0 ∅ Hlen Hall)
    as [Hharvest Hlogged].
  destruct (run_harvest dev s w Hdev Hconn Hsub Hdisc Hlogged) as (Hret & Hcalls & _).
  rewrite Hharvest in Hret.
  split; [done|]. split; [done|].
  intros key. rewrite merged_fields, lookup_empty. split.
  - intros [[? Hin]|?]; done.
  - by right.
Qed.

Lemma recoverable_failure_skips_one_command_witness :
  contributes three_command_device command_B (exchanges second_unanswered 1) None /\
  merged second_unanswered_results ∅
    = {[ "80" := [x00; x2b] ]} ∪ ({[ "10" := [x00; x2a] ]} ∪ ∅) /\
  fst (_async_update_data (Some three_command_device) second_unanswered start)
    = Ret (Some (merged second_unanswered_results ∅)) /\
  calls (snd (_async_update_data (Some three_command_device) second_unanswered start)) =
    calls start ++ [Connect; StartNotify]
      ++ writes (polling_commands three_command_device) ++ [Disconnect] /\
  (forall key,
     is_Some (merged second_unanswered_results ∅ !! key) <->
     exists i parsed,
       second_unanswered_results !! i = Some (Some parsed) /\
       is_Some (parsed !! key)).
Proof.
  split; [by apply answer_times_out|]. split; [reflexivity|].
  apply (recoverable_failure_skips_one_command three_command_device second_unanswered
           start second_unanswered_results).
  - discriminate.
  - reflexivity.
  - reflexivity.
  - reflexivity.
  - reflexivity.
  - intros [|[|[|i]]] command r Hc Hr; simpl in Hc, Hr; try discriminate;
      injection Hc as <-; injection Hr as <-.
    + by apply (command_succeeds _ _ _ answer_7 [x00; x2a]).
    + by apply answer_times_out.
    + by apply (command_succeeds _ _ _ other_answer_7 [x00; x2b]).
Defined.

(** * Which chunks reach the accumulator *)

Lemma unsettled_pending (self : coordinator) :
  settled self = false -> notify_future self = Some Pending.
Proof.
  unfold settled. destruct (notify_future self) as [[| | |]|]; done.
Qed.

(** One notification: appended exactly when the slot is not settled and the
    chunk is not an AT sequence; an AT sequence settles an unsettled slot. *)
Lemma handler_appends (self : coordinator) (data : bytes) :
  let self' := snd (_notification_handler self data) in
  notify_response self' =
    (if settled self || is_at_notification data then notify_response self
     else notify_response self ++ data) /\
  (settled self || is_at_notification data = true -> settled self' = true).
Proof.
  destruct (settled self) eqn:Hs; simpl.
  - rewrite handler_settled by done. done.
  - apply unsettled_pending in Hs as Hf.
    unfold _notification_handler. rewrite Hf. simpl.
    destruct (is_at_notification data); simpl; [done|].
    split; [|done]. repeat case_match; done.
Qed.

(** Chunks reach the accumulator until the slot settles, and not afterwards.
    Whatever the state and the notifications, there is a position [n] such
    that: the accumulator ends as what it held followed by the first [n]
    chunks, whole and in order; each of those chunks arrived while the slot
    was not settled and is not an AT sequence; and if a chunk is left at
    position [n], the slot is settled once that chunk has been handled, and
    neither it nor anything that arrives later is appended. *)
Theorem chunks_are_appended_until_settled (self : coordinator) (chunks : list bytes) :
  exists n,
    (n <= length chunks)%nat /\
    notify_response (deliver self chunks)
      = notify_response self ++ concat (take n chunks) /\
    (forall m data, (m < n)%nat -> chunks !! m = Some data ->
       settled (deliver self (take m chunks)) = false /\
       is_at_notification data = false) /\
    ((n < length chunks)%nat ->
       settled (deliver self (take (S n) chunks)) = true /\
       forall later, notify_response (deliver self (take (S n) chunks ++ later))
                     = notify_response self ++ concat (take n chunks)).
Proof.
  revert self. induction chunks as [|data rest IH]; intros self.
  - exists 0%nat. simpl. rewrite app_nil_r.
    split; [done|]. split; [done|]. split; [intros; lia|lia].
  - destruct (handler_appends self data) as [Hacc Hset].
    destruct (settled self || is_at_notification data) eqn:Hstop.
    + (* the first chunk is not appended and the slot is settled after it *)
      specialize (Hset eq_refl).
      exists 0%nat. simpl. rewrite app_nil_r.
      split; [lia|].
      split; [by rewrite deliver_settled|].
      split; [intros; lia|]. intros _.
      split; [done|]. intros later. by rewrite deliver_settled.
    + apply orb_false_iff in Hstop as [Hs Hat].
      destruct (IH (snd (_notification_handler self data)))
        as (n & Hn & Hres & Hbefore & Hafter).
      exists (S n). simpl.
      split; [lia|].
      split; [by rewrite Hres, Hacc, app_assoc|].
      split.
      * intros [|m] d Hm Hd; simpl in Hd.
        -- injection Hd as <-. done.
        -- simpl. apply Hbefore; [lia|done].
      * intros Hlt. destruct Hafter as [Hsettled Hlater]; [lia|].
        split; [done|]. intros later.
        rewrite Hlater, Hacc. by rewrite app_assoc.
Qed.
